(** * sailnavsim-core: the per-tick motion of a boat (src/Boat.c)

    A shallow embedding of [Boat.c] and the properties of its tick function
    [Boat_advance].

    - The C type [double] is an interface, [Scalar]: the arithmetic and the
      comparisons the file uses.  It has two instances.  [Scalar_float] is
      IEEE binary64 (the kernel's primitive floats), which is what the
      compiled program computes with.  [Scalar_Q] is exact rational
      arithmetic, on which the properties that need the laws of an ordered
      field are stated.  Properties that only follow the control flow are
      proved for every instance.
    - The collaborators outside the file (libproteus and BoatWindResponse)
      are the fields of a record [Env]; a tick sees one such environment.
    - [Boat_advance] mutates the boat it is handed and, through [rand_r],
      the file's static [_randSeed]; the embedding passes both explicitly. *)

From Stdlib Require Import ZArith QArith Qabs Bool List Lia Lqa.
From Stdlib Require Import Floats Uint63.
Import ListNotations.

Set Implicit Arguments.

(** ** Scalars *)

(** What [Boat.c] does with a [double]: decimal literals, [+ - * /], unary
    minus, [fabs], [<=] and [<].  [dconst m e] is the literal [m]·10^-[e]. *)
Class Scalar (D : Type) : Type := {
  dconst : Z -> nat -> D;
  dadd : D -> D -> D;
  dsub : D -> D -> D;
  dmul : D -> D -> D;
  ddiv : D -> D -> D;
  dneg : D -> D;
  dabs : D -> D;
  dle : D -> D -> bool;
  dlt : D -> D -> bool
}.

Declare Scope scalar_scope.
Delimit Scope scalar_scope with D.
Notation "x + y" := (dadd x y) : scalar_scope.
Notation "x - y" := (dsub x y) : scalar_scope.
Notation "x * y" := (dmul x y) : scalar_scope.
Notation "x / y" := (ddiv x y) : scalar_scope.
Notation "- x" := (dneg x) : scalar_scope.
Notation "x <=? y" := (dle x y) : scalar_scope.
Notation "x <? y" := (dlt x y) : scalar_scope.
Notation "x >=? y" := (dle y x) : scalar_scope.
Notation "x >? y" := (dlt y x) : scalar_scope.

(** binary64.  A decimal literal is the correctly rounded quotient of two
    integers that binary64 represents exactly, which is the nearest double
    to the decimal, as a C compiler reads it. *)
Definition float_of_Z (z : Z) : float :=
  if (z <? 0)%Z then PrimFloat.opp (PrimFloat.of_uint63 (Uint63.of_Z (- z)))
  else PrimFloat.of_uint63 (Uint63.of_Z z).

Definition float_const (m : Z) (e : nat) : float :=
  PrimFloat.div (float_of_Z m) (float_of_Z (10 ^ Z.of_nat e)).

#[export] Instance Scalar_float : Scalar float := {|
  dconst := float_const;
  dadd := PrimFloat.add;
  dsub := PrimFloat.sub;
  dmul := PrimFloat.mul;
  ddiv := PrimFloat.div;
  dneg := PrimFloat.opp;
  dabs := PrimFloat.abs;
  dle := PrimFloat.leb;
  dlt := PrimFloat.ltb
|}.

(** Exact rationals. *)
Definition Q_const (m : Z) (e : nat) : Q := Qmake m (Z.to_pos (10 ^ Z.of_nat e)).

Definition Qlt_bool (x y : Q) : bool := negb (Qle_bool y x).

#[export] Instance Scalar_Q : Scalar Q := {|
  dconst := Q_const;
  dadd := Qplus;
  dsub := Qminus;
  dmul := Qmult;
  ddiv := Qdiv;
  dneg := Qopp;
  dabs := Qabs;
  dle := Qle_bool;
  dlt := Qlt_bool
|}.

(** ** Data *)

(** libproteus' position and vector (degrees; the unit of [mag] is the
    caller's). *)
Record proteus_GeoPos (D : Type) : Type := { lat : D; lon : D }.
Record proteus_GeoVec (D : Type) : Type := { angle : D; mag : D }.

(** The two fields of [proteus_OceanData] and the one field of
    [proteus_Weather] that [Boat.c] reads. *)
Record proteus_OceanData (D : Type) : Type := {
  current : proteus_GeoVec D;
  ice : D
}.
Record proteus_Weather (D : Type) : Type := { wind : proteus_GeoVec D }.

(** [Boat] (Boat.h), by the fields [Boat.c] assigns in [Boat_new]. *)
Record Boat (D : Type) : Type := {
  pos : proteus_GeoPos D;
  v : proteus_GeoVec D;
  desiredCourse : D;
  distanceTravelled : D;
  boatType : Z;
  stop : bool;
  sailsDown : bool;
  movingToSea : bool;
  setImmediateDesiredCourse : bool
}.

(** The file's static state: [_randSeed].  [randCalls] is a ghost counter of
    the calls to [rand_r]; the program has no such variable. *)
Record World : Type := { _randSeed : Z; randCalls : nat }.

(** The collaborators.  [proteus_Ocean_get] returns its validity flag and the
    record it fills; [proteus_GeoPos_advance] and [proteus_GeoVec_add] return
    the new value of the first argument, which they update in place;
    [rand_r] returns its result and the new seed. *)
Record Env (D : Type) : Type := {
  proteus_GeoInfo_isWater : proteus_GeoPos D -> bool;
  proteus_GeoPos_advance : proteus_GeoPos D -> proteus_GeoVec D -> proteus_GeoPos D;
  proteus_GeoVec_add : proteus_GeoVec D -> proteus_GeoVec D -> proteus_GeoVec D;
  proteus_Ocean_get : proteus_GeoPos D -> bool * proteus_OceanData D;
  proteus_Weather_get : proteus_GeoPos D -> bool -> proteus_Weather D;
  proteus_Compass_diff : D -> D -> D;
  BoatWindResponse_getCourseChangeRate : Z -> D;
  BoatWindResponse_getBoatSpeed : D -> D -> Z -> D;
  BoatWindResponse_getSpeedChangeResponse : Z -> D;
  rand_r : Z -> Z * Z
}.

(** ** The program *)

Section Program.

Context {D : Type} {SD : Scalar D}.
Local Open Scope scalar_scope.

(** The literals of the file. *)
Definition c_0 : D := dconst 0 0.
Definition c_1 : D := dconst 1 0.
Definition c_10 : D := dconst 10 0.
Definition c_90 : D := dconst 90 0.
Definition c_100 : D := dconst 100 0.
Definition c_179 : D := dconst 179 0.
Definition c_180 : D := dconst 180 0.
Definition c_360 : D := dconst 360 0.
Definition c_0_1 : D := dconst 1 1.
Definition c_0_5 : D := dconst 5 1.

Definition FORBIDDEN_LAT : D := dconst 1 4.
Definition MOVE_TO_WATER_DISTANCE : Z := 100.

(** Assignments to one field. *)
Definition set_pos (b : Boat D) (p : proteus_GeoPos D) : Boat D :=
  {| pos := p; v := v b; desiredCourse := desiredCourse b;
     distanceTravelled := distanceTravelled b; boatType := boatType b;
     stop := stop b; sailsDown := sailsDown b; movingToSea := movingToSea b;
     setImmediateDesiredCourse := setImmediateDesiredCourse b |}.

Definition set_v (b : Boat D) (u : proteus_GeoVec D) : Boat D :=
  {| pos := pos b; v := u; desiredCourse := desiredCourse b;
     distanceTravelled := distanceTravelled b; boatType := boatType b;
     stop := stop b; sailsDown := sailsDown b; movingToSea := movingToSea b;
     setImmediateDesiredCourse := setImmediateDesiredCourse b |}.

Definition set_v_angle (b : Boat D) (a : D) : Boat D :=
  set_v b {| angle := a; mag := mag (v b) |}.

Definition set_v_mag (b : Boat D) (m : D) : Boat D :=
  set_v b {| angle := angle (v b); mag := m |}.

Definition set_distanceTravelled (b : Boat D) (d : D) : Boat D :=
  {| pos := pos b; v := v b; desiredCourse := desiredCourse b;
     distanceTravelled := d; boatType := boatType b;
     stop := stop b; sailsDown := sailsDown b; movingToSea := movingToSea b;
     setImmediateDesiredCourse := setImmediateDesiredCourse b |}.

Definition set_stop (b : Boat D) (f : bool) : Boat D :=
  {| pos := pos b; v := v b; desiredCourse := desiredCourse b;
     distanceTravelled := distanceTravelled b; boatType := boatType b;
     stop := f; sailsDown := sailsDown b; movingToSea := movingToSea b;
     setImmediateDesiredCourse := setImmediateDesiredCourse b |}.

Definition set_movingToSea (b : Boat D) (f : bool) : Boat D :=
  {| pos := pos b; v := v b; desiredCourse := desiredCourse b;
     distanceTravelled := distanceTravelled b; boatType := boatType b;
     stop := stop b; sailsDown := sailsDown b; movingToSea := f;
     setImmediateDesiredCourse := setImmediateDesiredCourse b |}.

Definition set_setImmediateDesiredCourse (b : Boat D) (f : bool) : Boat D :=
  {| pos := pos b; v := v b; desiredCourse := desiredCourse b;
     distanceTravelled := distanceTravelled b; boatType := boatType b;
     stop := stop b; sailsDown := sailsDown b; movingToSea := movingToSea b;
     setImmediateDesiredCourse := f |}.

(** [Boat_init]: [_randSeed = time(0)], an [unsigned int]. *)
Definition Boat_init (now : Z) (w : World) : Z * World :=
  (0%Z, {| _randSeed := now mod 2 ^ 32; randCalls := randCalls w |}).

Definition Boat_new (lat0 lon0 : D) (boatType0 : Z) : Boat D :=
  {| pos := {| lat := lat0; lon := lon0 |};
     v := {| angle := c_0; mag := c_0 |};
     desiredCourse := c_0;
     distanceTravelled := c_0;
     boatType := boatType0;
     stop := true;
     sailsDown := false;
     movingToSea := false;
     setImmediateDesiredCourse := true |}.

Definition stopBoat (b : Boat D) : Boat D :=
  set_v_mag (set_stop b true) c_0.

(** [valid ? (1.0 - (od->ice / 100.0f)) : 1.0].  libproteus declares the
    type of [ice]; the quotient is taken in the scalar type. *)
Definition oceanIceSpeedAdjustmentFactor (valid : bool) (od : proteus_OceanData D) : D :=
  if valid then c_1 - (ice od / c_100) else c_1.

Variable E : Env D.

(** [rand_r(&_randSeed)] *)
Definition call_rand_r (w : World) : Z * World :=
  let '(r, seed') := rand_r E (_randSeed w) in
  (r, {| _randSeed := seed'; randCalls := S (randCalls w) |}).

(** Lines 249-256: one wrap into the range of a compass angle. *)
Definition wrapCourse (b : Boat D) : Boat D :=
  if angle (v b) <? c_0 then set_v_angle b (angle (v b) + c_360)
  else if angle (v b) >=? c_360 then set_v_angle b (angle (v b) - c_360)
  else b.

Definition updateCourse (b : Boat D) (s : D) (w : World) : Boat D * World :=
  let courseDiff := proteus_Compass_diff E (angle (v b)) (desiredCourse b) in
  let courseChangeRate := BoatWindResponse_getCourseChangeRate E (boatType b) in
  if dabs courseDiff <=? courseChangeRate * s then
    (set_v_angle b (desiredCourse b), w)
  else
    let '(b1, w1) :=
      if (courseDiff <? c_0) && (courseDiff >=? - c_179) then
        (set_v_angle b (angle (v b) - courseChangeRate * s), w)
      else if (courseDiff >? c_0) && (courseDiff <=? c_179) then
        (set_v_angle b (angle (v b) + courseChangeRate * s), w)
      else
        let '(r, w') := call_rand_r w in
        if (Z.rem r 2 =? 0)%Z then
          (set_v_angle b (angle (v b) - courseChangeRate * s), w')
        else
          (set_v_angle b (angle (v b) + courseChangeRate * s), w') in
    (wrapCourse b1, w1).

Definition updateVelocity (b : Boat D) (s : D) (odv : bool) (od : proteus_OceanData D)
  : Boat D :=
  let wx := proteus_Weather_get E (pos b) true in
  let windVec := wind wx in
  let angleFromWind := proteus_Compass_diff E (angle windVec) (angle (v b)) in
  let spd := BoatWindResponse_getBoatSpeed E (mag windVec) angleFromWind (boatType b)
             * oceanIceSpeedAdjustmentFactor odv od in
  let speedChangeResponse := BoatWindResponse_getSpeedChangeResponse E (boatType b) in
  set_v_mag b (((speedChangeResponse * mag (v b)) + (s * spd)) / (speedChangeResponse + s)).

(** The loop of [Boat_isHeadingTowardWater]: [d] and [pos] are its variables,
    [vec] its constant step.  [None] is the fuel running out before the loop
    condition fails. *)
Fixpoint towardWater_loop (fuel : nat) (d : Z) (p : proteus_GeoPos D)
  (vec : proteus_GeoVec D) : option bool :=
  match fuel with
  | O => None
  | S fuel' =>
      if (d <=? MOVE_TO_WATER_DISTANCE + 10)%Z then
        if proteus_GeoInfo_isWater E p then Some true
        else towardWater_loop fuel' (d + 10)%Z (proteus_GeoPos_advance E p vec) vec
      else Some false
  end.

(** Thirteen evaluations of the loop condition: d = 0, 10, ..., 120. *)
Definition towardWater_fuel : nat := 13.

Definition Boat_isHeadingTowardWater (b : Boat D) : bool :=
  let vec := {| angle := desiredCourse b; mag := c_10 |} in
  match towardWater_loop towardWater_fuel 0%Z (pos b) vec with
  | Some r => r
  | None => false
  end.

(** Lines 96-104: the boat has reached water. *)
Definition reachedWater (b : Boat D) : Boat D :=
  let b1 := set_movingToSea b false in
  if setImmediateDesiredCourse b1 then
    set_setImmediateDesiredCourse (set_v_angle b1 (desiredCourse b1)) false
  else b1.

(** Lines 130-153: the new velocity over water. *)
Definition steer (b : Boat D) (s : D) (oceanDataValid : bool)
  (od : proteus_OceanData D) (w : World) : Boat D * World :=
  if sailsDown b then
    let wx := proteus_Weather_get E (pos b) true in
    let windVec := wind wx in
    let b1 := set_v_angle b (angle windVec + c_180) in
    let b2 := if angle (v b1) >=? c_360 then set_v_angle b1 (angle (v b1) - c_360)
              else b1 in
    (set_v_mag b2 (mag windVec * c_0_1 * oceanIceSpeedAdjustmentFactor oceanDataValid od),
     w)
  else
    let '(b1, w1) := updateCourse b s w in
    (updateVelocity b1 s oceanDataValid od, w1).

(** Lines 155-181: the move, the distance, the grounding check. *)
Definition move (b : Boat D) (s : D) (oceanDataValid : bool)
  (od : proteus_OceanData D) : Boat D :=
  let v1 := {| angle := angle (v b); mag := mag (v b) * s |} in
  let b1 := set_pos b (proteus_GeoPos_advance E (pos b) v1) in
  let b2 :=
    if oceanDataValid then
      let cur := {| angle := angle (current od); mag := mag (current od) * s |} in
      let b' := set_pos b1 (proteus_GeoPos_advance E (pos b1) cur) in
      let sum := proteus_GeoVec_add E cur v1 in
      set_distanceTravelled b' (distanceTravelled b' + mag sum)
    else
      set_distanceTravelled b1 (distanceTravelled b1 + dabs (mag v1)) in
  if negb (proteus_GeoInfo_isWater E (pos b2)) then stopBoat b2 else b2.

(** Lines 127-181. *)
Definition sail (b : Boat D) (s : D) (w : World) : Boat D * World :=
  let '(oceanDataValid, od) := proteus_Ocean_get E (pos b) in
  let '(b1, w1) := steer b s oceanDataValid od w in
  (move b1 s oceanDataValid od, w1).

Definition Boat_advance (b : Boat D) (s : D) (w : World) : Boat D * World :=
  if stop b then (b, w)
  else if (lat (pos b) >=? c_90 - FORBIDDEN_LAT)
          || (lat (pos b) <=? - c_90 + FORBIDDEN_LAT) then
    (stopBoat b, w)
  else if movingToSea b then
    if proteus_GeoInfo_isWater E (pos b) then
      sail (reachedWater b) s w
    else if Boat_isHeadingTowardWater b then
      let b1 := set_v_angle b (desiredCourse b) in
      let b2 := set_v_mag b1 (s * c_0_5) in
      (set_pos b2 (proteus_GeoPos_advance E (pos b2) (v b2)), w)
    else
      (stopBoat b, w)
  else sail b s w.

End Program.

(** ** Vocabulary of the properties *)

Section Vocabulary.

Context {D : Type} {SD : Scalar D}.
Local Open Scope scalar_scope.

(** The polar guard of line 82:
    lat >= 90.0 - FORBIDDEN_LAT || lat <= -90.0 + FORBIDDEN_LAT. *)
Definition inPolarMargin (x : D) : bool :=
  (x >=? c_90 - FORBIDDEN_LAT) || (x <=? - c_90 + FORBIDDEN_LAT).

(** A compass angle lies in [0, 360). *)
Definition isCompassAngle (x : D) : bool := (c_0 <=? x) && (x <? c_360).

(** A signed shortest difference lies in (-180, 180]. *)
Definition isCompassDiff (x : D) : bool := (- c_180 <? x) && (x <=? c_180).

(** Successive ticks, each with its own environment and elapsed time. *)
Definition Boat_run (ticks : list (Env D * D)) (st : Boat D * World) : Boat D * World :=
  fold_left (fun st t => Boat_advance (fst t) (fst st) (snd t) (snd st)) ticks st.

(** The [k]-th point the land-approach probe samples: [k] steps of 10 from
    the boat's position along [desiredCourse]. *)
Definition probeSample (E : Env D) (b : Boat D) (k : nat) : proteus_GeoPos D :=
  Nat.iter k
    (fun p => proteus_GeoPos_advance E p {| angle := desiredCourse b; mag := c_10 |})
    (pos b).

(** A heading turned left or right by [t] and brought back by one full
    circle when it leaves the range of a compass angle at that end. *)
Definition turnedLeft (h t : D) : D :=
  if h - t <? c_0 then h - t + c_360 else h - t.

Definition turnedRight (h t : D) : D :=
  if h + t >=? c_360 then h + t - c_360 else h + t.

(** The boat as the heading controller and the speed model receive it: after
    lines 89-105 have handled [movingToSea]. *)
Definition atSea (b : Boat D) : Boat D :=
  if movingToSea b then reachedWater b else b.

End Vocabulary.

(** ** A small world to run the program in

    A one-dimensional sea: a move shifts the longitude by the magnitude of
    the vector, whatever its angle; the water lies between the longitudes
    [west] (included) and [east] (excluded).  Wind, ocean data and the
    performance table are constant. *)

Section Toy.

Context {D : Type} {SD : Scalar D}.
Local Open Scope scalar_scope.

Definition toy_advance (p : proteus_GeoPos D) (u : proteus_GeoVec D) : proteus_GeoPos D :=
  {| lat := lat p; lon := lon p + mag u |}.

Definition toy_add (a c : proteus_GeoVec D) : proteus_GeoVec D :=
  {| angle := angle a; mag := dabs (mag a + mag c) |}.

(** The difference [c - a] brought into (-180, 180] by one turn; a value that
    is still outside (operands that are no compass angles) is replaced by
    180. *)
Definition toy_diff (a c : D) : D :=
  let d := c - a in
  let d := if d >? c_180 then d - c_360
           else if d <=? - c_180 then d + c_360 else d in
  if isCompassDiff d then d else c_180.

Definition toyEnv (west east : D) (windVec : proteus_GeoVec D)
  (ocean : bool * proteus_OceanData D) (rate speed tau : D) (coin : Z) : Env D :=
  {| proteus_GeoInfo_isWater := fun p => (west <=? lon p) && (lon p <? east);
     proteus_GeoPos_advance := toy_advance;
     proteus_GeoVec_add := toy_add;
     proteus_Ocean_get := fun _ => ocean;
     proteus_Weather_get := fun _ _ => {| wind := windVec |};
     proteus_Compass_diff := toy_diff;
     BoatWindResponse_getCourseChangeRate := fun _ => rate;
     BoatWindResponse_getBoatSpeed := fun _ _ _ => speed;
     BoatWindResponse_getSpeedChangeResponse := fun _ => tau;
     rand_r := fun seed => (coin, (seed + 1)%Z) |}.

(** A boat under way at (0, 0). *)
Definition toyBoat (heading speed course : D) (down toSea first : bool) : Boat D :=
  {| pos := {| lat := c_0; lon := c_0 |};
     v := {| angle := heading; mag := speed |};
     desiredCourse := course;
     distanceTravelled := c_0;
     boatType := 0%Z;
     stop := false;
     sailsDown := down;
     movingToSea := toSea;
     setImmediateDesiredCourse := first |}.

(** The same boat at latitude 89.99995. *)
Definition polarBoat (heading speed course : D) (down toSea first : bool) : Boat D :=
  set_pos (toyBoat heading speed course down toSea first)
    {| lat := dconst 8999995 5; lon := c_0 |}.

Definition noOcean : bool * proteus_OceanData D :=
  (false, {| current := {| angle := c_0; mag := c_0 |}; ice := c_0 |}).

(** Open water all around, no wind, no ocean data; the boats turn at 3
    degrees per unit of time. *)
Definition calmSea : Env D :=
  toyEnv (- dconst 1000 0) (dconst 1000 0) {| angle := c_0; mag := c_0 |} noOcean
    (dconst 3 0) c_0 c_1 0.

(** Open water with wind from 90 at 20, a current of 1 and half ice cover. *)
Definition icySea : Env D :=
  toyEnv (- dconst 1000 0) (dconst 1000 0) {| angle := c_90; mag := dconst 20 0 |}
    (true, {| current := {| angle := c_0; mag := c_1 |}; ice := dconst 50 0 |})
    (dconst 3 0) (dconst 4 0) c_1 1.

(** Land from longitude 1 on; wind from 90 at 20; polar speed 4. *)
Definition leeShore : Env D :=
  toyEnv (- dconst 10 0) c_1 {| angle := c_90; mag := dconst 20 0 |} noOcean
    (dconst 3 0) (dconst 4 0) c_1 0.

(** Land up to longitude 40, water beyond. *)
Definition beach : Env D :=
  toyEnv (dconst 40 0) (dconst 1000 0) {| angle := c_0; mag := c_0 |} noOcean
    (dconst 3 0) c_0 c_1 0.

(** Land up to longitude 500: no water within reach of the probe. *)
Definition inland : Env D :=
  toyEnv (dconst 500 0) (dconst 1000 0) {| angle := c_0; mag := c_0 |} noOcean
    (dconst 3 0) c_0 c_1 0.

End Toy.

Definition world0 : World := {| _randSeed := 1; randCalls := 0 |}.

(** ** Tactics *)

(** The literals and the operations of a goal over [Scalar_Q] as the
    rationals and the operations of [Q]. *)
Ltac exact_literals :=
  change (@c_0 Q Scalar_Q) with 0%Q in *;
  change (@c_1 Q Scalar_Q) with 1%Q in *;
  change (@c_100 Q Scalar_Q) with 100%Q in *;
  change (@c_179 Q Scalar_Q) with 179%Q in *;
  change (@c_180 Q Scalar_Q) with 180%Q in *;
  change (@c_360 Q Scalar_Q) with 360%Q in *;
  change (@c_0_1 Q Scalar_Q) with (1 # 10)%Q in *;
  change (@dadd Q Scalar_Q) with Qplus in *;
  change (@dsub Q Scalar_Q) with Qminus in *;
  change (@dmul Q Scalar_Q) with Qmult in *;
  change (@ddiv Q Scalar_Q) with Qdiv in *;
  change (@dneg Q Scalar_Q) with Qopp in *;
  change (@dabs Q Scalar_Q) with Qabs in *.

(** The outcomes of comparisons among the hypotheses as propositions, given
    the four lemmas that read [dle] and [dlt]. *)
Ltac reflect_order le_true le_false lt_true lt_false :=
  repeat match goal with
    | H : dle _ _ = true |- _ => apply le_true in H
    | H : dle _ _ = false |- _ => apply le_false in H
    | H : dlt _ _ = true |- _ => apply lt_true in H
    | H : dlt _ _ = false |- _ => apply lt_false in H
    | H : (_ && _)%bool = true |- _ => apply andb_true_iff in H; destruct H
    | H : (_ && _)%bool = false |- _ => apply andb_false_iff in H; destruct H
    end.

(** Two binary64 numbers with different representations are different. *)
Ltac float_neq :=
  let H := fresh in
  intro H; apply (f_equal Prim2SF) in H; vm_compute in H; discriminate H.

(** ** Properties that follow the control flow

    They hold for every scalar type, binary64 included. *)

Section ControlFlow.

Context {D : Type} {SD : Scalar D}.
Local Open Scope scalar_scope.

Implicit Types (E : Env D) (b : Boat D) (s : D) (w : World).

(** *** Field assignments *)

Lemma stopBoat_fields b :
  stopBoat b =
  {| pos := pos b; v := {| angle := angle (v b); mag := c_0 |};
     desiredCourse := desiredCourse b; distanceTravelled := distanceTravelled b;
     boatType := boatType b; stop := true; sailsDown := sailsDown b;
     movingToSea := movingToSea b;
     setImmediateDesiredCourse := setImmediateDesiredCourse b |}.
Proof. reflexivity. Qed.

Lemma reachedWater_frame b :
  pos (reachedWater b) = pos b /\ mag (v (reachedWater b)) = mag (v b)
  /\ desiredCourse (reachedWater b) = desiredCourse b
  /\ distanceTravelled (reachedWater b) = distanceTravelled b
  /\ boatType (reachedWater b) = boatType b
  /\ stop (reachedWater b) = stop b /\ sailsDown (reachedWater b) = sailsDown b.
Proof.
  unfold reachedWater; cbn.
  destruct (setImmediateDesiredCourse b); cbn; repeat split.
Qed.

Lemma atSea_frame b :
  pos (atSea b) = pos b /\ mag (v (atSea b)) = mag (v b)
  /\ desiredCourse (atSea b) = desiredCourse b
  /\ distanceTravelled (atSea b) = distanceTravelled b
  /\ boatType (atSea b) = boatType b
  /\ stop (atSea b) = stop b /\ sailsDown (atSea b) = sailsDown b.
Proof.
  unfold atSea. destruct (movingToSea b).
  - apply reachedWater_frame.
  - repeat split.
Qed.

Lemma atSea_angle b :
  angle (v (atSea b)) =
  if movingToSea b && setImmediateDesiredCourse b then desiredCourse b
  else angle (v b).
Proof.
  unfold atSea, reachedWater; cbn.
  destruct (movingToSea b), (setImmediateDesiredCourse b); reflexivity.
Qed.

Lemma wrapCourse_angle E b :
  wrapCourse b = set_v_angle b (angle (v (wrapCourse b))).
Proof.
  unfold wrapCourse.
  destruct (angle (v b) <? c_0); [reflexivity|].
  destruct (angle (v b) >=? c_360); [reflexivity|].
  destruct b as [p [a m] dc dt ty st sd ms si]; reflexivity.
Qed.

(** The heading controller assigns [v.angle] and nothing else. *)
Lemma updateCourse_frame E b s w :
  fst (updateCourse E b s w) =
  set_v_angle b (angle (v (fst (updateCourse E b s w)))).
Proof.
  unfold updateCourse.
  destruct (dabs _ <=? _); [reflexivity|].
  destruct (_ && _).
  - cbn [fst]. rewrite (wrapCourse_angle E) at 1. reflexivity.
  - destruct (_ && _).
    + cbn [fst]. rewrite (wrapCourse_angle E) at 1. reflexivity.
    + destruct (call_rand_r E w) as [r w']. destruct (Z.rem r 2 =? 0)%Z;
        cbn [fst]; rewrite (wrapCourse_angle E) at 1; reflexivity.
Qed.

(** *** The paths of a tick *)

Lemma Boat_advance_at_sea E b s w :
  stop b = false -> inPolarMargin (lat (pos b)) = false ->
  (movingToSea b = true -> proteus_GeoInfo_isWater E (pos b) = true) ->
  Boat_advance E b s w = sail E (atSea b) s w.
Proof.
  intros Hs Hp Hw. unfold Boat_advance, atSea.
  unfold inPolarMargin in Hp. rewrite Hs, Hp.
  destruct (movingToSea b); [rewrite Hw|]; reflexivity.
Qed.

Lemma Boat_advance_on_land E b s w :
  stop b = false -> inPolarMargin (lat (pos b)) = false ->
  movingToSea b = true -> proteus_GeoInfo_isWater E (pos b) = false ->
  Boat_advance E b s w =
  if Boat_isHeadingTowardWater E b then
    ({| pos := proteus_GeoPos_advance E (pos b)
                 {| angle := desiredCourse b; mag := s * c_0_5 |};
        v := {| angle := desiredCourse b; mag := s * c_0_5 |};
        desiredCourse := desiredCourse b; distanceTravelled := distanceTravelled b;
        boatType := boatType b; stop := stop b; sailsDown := sailsDown b;
        movingToSea := movingToSea b;
        setImmediateDesiredCourse := setImmediateDesiredCourse b |}, w)
  else (stopBoat b, w).
Proof.
  intros Hs Hp Hm Hw. unfold Boat_advance.
  unfold inPolarMargin in Hp. rewrite Hs, Hp, Hm, Hw.
  destruct (Boat_isHeadingTowardWater E b); [|reflexivity].
  unfold set_pos, set_v_mag, set_v_angle, set_v; cbn [pos v angle mag stop movingToSea
    desiredCourse distanceTravelled boatType sailsDown setImmediateDesiredCourse].
  rewrite Hs, Hm. reflexivity.
Qed.

(** The probe: twelve samples, at 0, 10, ..., 110 along [desiredCourse]; the
    fuel of the loop is never what ends it. *)
Lemma towardWater_loop_samples E b :
  towardWater_loop E towardWater_fuel 0%Z (pos b)
    {| angle := desiredCourse b; mag := c_10 |} =
  Some (existsb (fun k => proteus_GeoInfo_isWater E (probeSample E b k)) (seq 0 12)).
Proof.
  unfold towardWater_fuel, probeSample. cbn.
  repeat (match goal with
          | |- context [proteus_GeoInfo_isWater E ?p] =>
              destruct (proteus_GeoInfo_isWater E p); [reflexivity|]
          end; cbn).
  reflexivity.
Qed.

Lemma Boat_isHeadingTowardWater_samples E b :
  Boat_isHeadingTowardWater E b = true <->
  exists k, (k <= 11)%nat /\ proteus_GeoInfo_isWater E (probeSample E b k) = true.
Proof.
  unfold Boat_isHeadingTowardWater. rewrite towardWater_loop_samples.
  rewrite existsb_exists. split.
  - intros [k [Hin Hk]]. apply in_seq in Hin. exists k. split; [lia|exact Hk].
  - intros [k [Hle Hk]]. exists k. split; [apply in_seq; lia|exact Hk].
Qed.

(** The move: both displacements, the distance, the grounding check. *)
Lemma move_fields E b s (valid : bool) (od : proteus_OceanData D) :
  let step := {| angle := angle (v b); mag := mag (v b) * s |} in
  let drift := {| angle := angle (current od); mag := mag (current od) * s |} in
  let p' := if valid
            then proteus_GeoPos_advance E (proteus_GeoPos_advance E (pos b) step) drift
            else proteus_GeoPos_advance E (pos b) step in
  let b' := move E b s valid od in
  pos b' = p'
  /\ angle (v b') = angle (v b)
  /\ mag (v b') = (if proteus_GeoInfo_isWater E p' then mag (v b) else c_0)
  /\ stop b' = (if proteus_GeoInfo_isWater E p' then stop b else true)
  /\ distanceTravelled b' =
     distanceTravelled b
     + (if valid then mag (proteus_GeoVec_add E drift step) else dabs (mag step))
  /\ desiredCourse b' = desiredCourse b /\ boatType b' = boatType b
  /\ sailsDown b' = sailsDown b /\ movingToSea b' = movingToSea b
  /\ setImmediateDesiredCourse b' = setImmediateDesiredCourse b.
Proof.
  cbv zeta. unfold move.
  destruct valid; cbn [pos set_pos set_distanceTravelled];
    match goal with
    | |- context [negb (proteus_GeoInfo_isWater E ?p)] =>
        destruct (proteus_GeoInfo_isWater E p)
    end; cbn; repeat split.
Qed.

(** The velocity over water in normal sailing: the heading controller,
    then the speed model on the new heading. *)
Lemma steer_sailing E b s (valid : bool) (od : proteus_OceanData D) w :
  sailsDown b = false ->
  let heading := angle (v (fst (updateCourse E b s w))) in
  let windVec := wind (proteus_Weather_get E (pos b) true) in
  let spd :=
    BoatWindResponse_getBoatSpeed E (mag windVec)
      (proteus_Compass_diff E (angle windVec) heading) (boatType b)
    * oceanIceSpeedAdjustmentFactor valid od in
  let tau := BoatWindResponse_getSpeedChangeResponse E (boatType b) in
  steer E b s valid od w =
  (set_v b {| angle := heading; mag := (tau * mag (v b) + s * spd) / (tau + s) |},
   snd (updateCourse E b s w)).
Proof.
  intros Hd. cbv zeta. unfold steer. rewrite Hd.
  pose proof (updateCourse_frame E b s w) as Hu.
  destruct (updateCourse E b s w) as [b1 w1]. cbn [fst snd] in *.
  set (h := angle (v b1)) in *. clearbody h. subst b1.
  reflexivity.
Qed.

(** The velocity over water with the sails down. *)
Lemma steer_sailsDown E b s (valid : bool) (od : proteus_OceanData D) w :
  sailsDown b = true ->
  let windVec := wind (proteus_Weather_get E (pos b) true) in
  let a := angle windVec + c_180 in
  steer E b s valid od w =
  (set_v b {| angle := if a >=? c_360 then a - c_360 else a;
              mag := mag windVec * c_0_1 * oceanIceSpeedAdjustmentFactor valid od |},
   w).
Proof.
  intros Hd. cbv zeta. unfold steer. rewrite Hd. cbn [set_v_angle set_v v angle].
  destruct (_ >=? c_360); reflexivity.
Qed.

(** The heading controller snaps when the difference is within one turn. *)
Lemma updateCourse_snap E b s w :
  (dabs (proteus_Compass_diff E (angle (v b)) (desiredCourse b))
   <=? BoatWindResponse_getCourseChangeRate E (boatType b) * s) = true ->
  updateCourse E b s w = (set_v_angle b (desiredCourse b), w).
Proof. intros H. unfold updateCourse. rewrite H. reflexivity. Qed.

(** [rand_r] is called once, on the last branch of the heading controller,
    and not at all on the others. *)
Lemma updateCourse_randCalls E b s w :
  let courseDiff := proteus_Compass_diff E (angle (v b)) (desiredCourse b) in
  let turn := BoatWindResponse_getCourseChangeRate E (boatType b) * s in
  randCalls (snd (updateCourse E b s w)) =
  if (dabs courseDiff <=? turn)
     || ((courseDiff <? c_0) && (courseDiff >=? - c_179))
     || ((courseDiff >? c_0) && (courseDiff <=? c_179))
  then randCalls w else S (randCalls w).
Proof.
  cbv zeta. unfold updateCourse.
  destruct (dabs _ <=? _); [reflexivity|].
  destruct (_ && _); [reflexivity|].
  destruct (_ && _); [reflexivity|].
  unfold call_rand_r. destruct (rand_r E (_randSeed w)) as [r seed'].
  destruct (Z.rem r 2 =? 0)%Z; reflexivity.
Qed.

End ControlFlow.

(** ** The claims that follow the control flow *)

Section TickPaths.

Context {D : Type} {SD : Scalar D}.
Local Open Scope scalar_scope.

Implicit Types (E : Env D) (b : Boat D) (s : D) (w : World).

(** The probe consults [proteus_GeoInfo_isWater] and
    [proteus_GeoPos_advance] only. *)
Lemma towardWater_loop_ext E E' fuel :
  (forall p, proteus_GeoInfo_isWater E' p = proteus_GeoInfo_isWater E p) ->
  (forall p u, proteus_GeoPos_advance E' p u = proteus_GeoPos_advance E p u) ->
  forall d p vec, towardWater_loop E' fuel d p vec = towardWater_loop E fuel d p vec.
Proof.
  intros Hw Ha. induction fuel as [|fuel IH]; intros d p vec; [reflexivity|].
  cbn [towardWater_loop]. rewrite Hw, Ha, IH. reflexivity.
Qed.

(** C1. A boat with [stop] set is left as it is by [Boat_advance], whatever
    the environment and the elapsed time: every field of the boat and the
    random seed are unchanged.  Hence any sequence of ticks leaves it
    unchanged, and [stop] is still set after it. *)
Theorem Boat_advance_stopped_unchanged b :
  stop b = true ->
  (forall E s w, Boat_advance E b s w = (b, w))
  /\ (forall ticks w, Boat_run ticks (b, w) = (b, w))
  /\ (forall ticks w, stop (fst (Boat_run ticks (b, w))) = true).
Proof.
  intros Hs.
  assert (H1 : forall E s w, Boat_advance E b s w = (b, w)).
  { intros. unfold Boat_advance. rewrite Hs. reflexivity. }
  assert (H2 : forall ticks w, Boat_run ticks (b, w) = (b, w)).
  { induction ticks as [|[E s] ticks IH]; intros w; [reflexivity|].
    unfold Boat_run in *. cbn [fold_left fst snd]. rewrite H1. apply IH. }
  repeat split; auto. intros. rewrite H2. exact Hs.
Qed.

(** C2. A boat that is not stopped and whose latitude is in the polar margin
    is stopped by one tick: [stop] is set, [v.mag] is 0, and the position,
    [v.angle], [desiredCourse], [distanceTravelled], the type and the other
    flags are as before, in every environment and for every elapsed time. *)
Theorem Boat_advance_polar_stop E b s w :
  stop b = false -> inPolarMargin (lat (pos b)) = true ->
  Boat_advance E b s w =
  ({| pos := pos b; v := {| angle := angle (v b); mag := c_0 |};
      desiredCourse := desiredCourse b; distanceTravelled := distanceTravelled b;
      boatType := boatType b; stop := true; sailsDown := sailsDown b;
      movingToSea := movingToSea b;
      setImmediateDesiredCourse := setImmediateDesiredCourse b |}, w).
Proof.
  intros Hs Hp. unfold Boat_advance. unfold inPolarMargin in Hp.
  rewrite Hs, Hp. reflexivity.
Qed.

(** C6, amended. In normal sailing the speed model sets the speed to
    (tau * oldSpeed + dt * targetSpeed) / (tau + dt), with targetSpeed the
    polar speed at the angle between the wind and the heading the controller
    has just set, times the ice factor.  The position is moved with that
    speed.  It is the speed after the tick when the new position is water;
    when it is land the boat is stopped and its speed after the tick is 0. *)
Theorem Boat_advance_speed_model E b s w :
  stop b = false -> inPolarMargin (lat (pos b)) = false -> sailsDown b = false ->
  (movingToSea b = true -> proteus_GeoInfo_isWater E (pos b) = true) ->
  let ocean := proteus_Ocean_get E (pos b) in
  let windVec := wind (proteus_Weather_get E (pos b) true) in
  let heading := angle (v (fst (updateCourse E (atSea b) s w))) in
  let angleFromWind := proteus_Compass_diff E (angle windVec) heading in
  let iceFactor := if fst ocean then c_1 - ice (snd ocean) / c_100 else c_1 in
  let targetSpeed :=
    BoatWindResponse_getBoatSpeed E (mag windVec) angleFromWind (boatType b)
    * iceFactor in
  let tau := BoatWindResponse_getSpeedChangeResponse E (boatType b) in
  let newSpeed := (tau * mag (v b) + s * targetSpeed) / (tau + s) in
  let step := {| angle := heading; mag := newSpeed * s |} in
  let drift := {| angle := angle (current (snd ocean));
                  mag := mag (current (snd ocean)) * s |} in
  let b' := fst (Boat_advance E b s w) in
  v (fst (steer E (atSea b) s (fst ocean) (snd ocean) w))
  = {| angle := heading; mag := newSpeed |}
  /\ pos b' = (if fst ocean
               then proteus_GeoPos_advance E (proteus_GeoPos_advance E (pos b) step) drift
               else proteus_GeoPos_advance E (pos b) step)
  /\ angle (v b') = heading
  /\ mag (v b') = (if proteus_GeoInfo_isWater E (pos b') then newSpeed else c_0)
  /\ stop b' = negb (proteus_GeoInfo_isWater E (pos b')).
Proof.
  intros Hs Hp Hd Hw. cbv zeta.
  rewrite (Boat_advance_at_sea E b s w Hs Hp Hw).
  destruct (atSea_frame b) as (Fp & Fm & Fc & Fd & Ft & Fs & Fsd).
  unfold sail. rewrite Fp. destruct (proteus_Ocean_get E (pos b)) as [valid od].
  cbn [fst snd].
  rewrite steer_sailing by (rewrite Fsd; exact Hd). cbn [fst snd].
  rewrite Fp, Fm, Ft.
  split; [reflexivity|].
  match goal with |- context [move E ?b1 s valid od] =>
    pose proof (move_fields E b1 s valid od) as Hm end.
  cbv zeta in Hm. cbn [pos v angle mag set_v stop] in Hm. rewrite Fp, Fs, Hs in Hm.
  destruct Hm as (Mp & Ma & Mm & Ms & _).
  unfold oceanIceSpeedAdjustmentFactor in *.
  rewrite Mp, Ma, Mm, Ms.
  repeat split.
Qed.

(** C8. A boat that is not stopped, not in the polar margin, moving to sea
    and on land.  The probe samples the positions 0, 10, ..., 110 along
    [desiredCourse].  If one of them is water, the tick sets the heading to
    [desiredCourse] and the speed to dt * 0.5, moves the position once by that
    vector and ends: nothing else changes, [stop] stays clear whatever the new
    position is.  If none is water, the tick stops the boat.  Either way the
    outcome depends on the environment through the water classification and
    the position arithmetic only. *)
Theorem Boat_advance_land_approach E b s w :
  stop b = false -> inPolarMargin (lat (pos b)) = false ->
  movingToSea b = true -> proteus_GeoInfo_isWater E (pos b) = false ->
  ((exists k, (k <= 11)%nat /\ proteus_GeoInfo_isWater E (probeSample E b k) = true) ->
   Boat_advance E b s w =
   ({| pos := proteus_GeoPos_advance E (pos b)
                {| angle := desiredCourse b; mag := s * c_0_5 |};
       v := {| angle := desiredCourse b; mag := s * c_0_5 |};
       desiredCourse := desiredCourse b; distanceTravelled := distanceTravelled b;
       boatType := boatType b; stop := false; sailsDown := sailsDown b;
       movingToSea := true;
       setImmediateDesiredCourse := setImmediateDesiredCourse b |}, w))
  /\ ((forall k, (k <= 11)%nat ->
                 proteus_GeoInfo_isWater E (probeSample E b k) = false) ->
      Boat_advance E b s w =
      ({| pos := pos b; v := {| angle := angle (v b); mag := c_0 |};
          desiredCourse := desiredCourse b; distanceTravelled := distanceTravelled b;
          boatType := boatType b; stop := true; sailsDown := sailsDown b;
          movingToSea := true;
          setImmediateDesiredCourse := setImmediateDesiredCourse b |}, w))
  /\ (forall E',
        (forall p, proteus_GeoInfo_isWater E' p = proteus_GeoInfo_isWater E p) ->
        (forall p u, proteus_GeoPos_advance E' p u = proteus_GeoPos_advance E p u) ->
        Boat_advance E' b s w = Boat_advance E b s w).
Proof.
  intros Hs Hp Hm Hw. split; [|split].
  - intros Hex. rewrite (Boat_advance_on_land E b s w Hs Hp Hm Hw).
    apply Boat_isHeadingTowardWater_samples in Hex. rewrite Hex, Hs, Hm. reflexivity.
  - intros Hall. rewrite (Boat_advance_on_land E b s w Hs Hp Hm Hw).
    destruct (Boat_isHeadingTowardWater E b) eqn:Hh.
    + apply Boat_isHeadingTowardWater_samples in Hh. destruct Hh as (k & Hk & Hk').
      rewrite (Hall k Hk) in Hk'. discriminate Hk'.
    + rewrite stopBoat_fields, Hm. reflexivity.
  - intros E' Ew Ea.
    rewrite (Boat_advance_on_land E b s w Hs Hp Hm Hw).
    rewrite (Boat_advance_on_land E' b s w Hs Hp Hm) by (rewrite Ew; exact Hw).
    unfold Boat_isHeadingTowardWater.
    rewrite (towardWater_loop_ext E E' towardWater_fuel Ew Ea), Ea. reflexivity.
Qed.

(** C9, amended. [Boat_new] returns a boat at the given position and of the
    given type, with velocity, [desiredCourse] and [distanceTravelled] zero,
    and with [stop] set: the boat is created stopped, with the sails up, not
    moving to sea, and with [setImmediateDesiredCourse] set.  A tick leaves
    the boat as [Boat_new] returned it. *)
Theorem Boat_new_fields (lat0 lon0 : D) (ty : Z) :
  Boat_new lat0 lon0 ty =
  {| pos := {| lat := lat0; lon := lon0 |};
     v := {| angle := c_0; mag := c_0 |};
     desiredCourse := c_0; distanceTravelled := c_0; boatType := ty;
     stop := true; sailsDown := false; movingToSea := false;
     setImmediateDesiredCourse := true |}
  /\ (forall E s w,
        Boat_advance E (Boat_new lat0 lon0 ty) s w = (Boat_new lat0 lon0 ty, w)).
Proof.
  split; [reflexivity|].
  intros E s w. unfold Boat_advance, Boat_new. cbn [stop]. reflexivity.
Qed.

(** C10. On the path of C8 on which the probe finds water, the tick assigns
    the position, [v.angle] and [v.mag] and nothing else: the boat moves and
    [distanceTravelled] is as before, and so are [desiredCourse], the type,
    the four flags and the random seed. *)
Theorem Boat_advance_land_approach_frame E b s w :
  stop b = false -> inPolarMargin (lat (pos b)) = false ->
  movingToSea b = true -> proteus_GeoInfo_isWater E (pos b) = false ->
  Boat_isHeadingTowardWater E b = true ->
  let b' := fst (Boat_advance E b s w) in
  distanceTravelled b' = distanceTravelled b
  /\ pos b' = proteus_GeoPos_advance E (pos b)
                {| angle := desiredCourse b; mag := s * c_0_5 |}
  /\ v b' = {| angle := desiredCourse b; mag := s * c_0_5 |}
  /\ stop b' = stop b /\ movingToSea b' = movingToSea b
  /\ sailsDown b' = sailsDown b
  /\ setImmediateDesiredCourse b' = setImmediateDesiredCourse b
  /\ desiredCourse b' = desiredCourse b /\ boatType b' = boatType b
  /\ snd (Boat_advance E b s w) = w.
Proof.
  intros Hs Hp Hm Hw Hh. cbv zeta.
  rewrite (Boat_advance_on_land E b s w Hs Hp Hm Hw), Hh. cbn.
  repeat split.
Qed.

End TickPaths.

(** ** Exact arithmetic

    The comparisons of [Scalar_Q] decide the order of the rationals, and the
    literals are the rationals they denote. *)

Section ExactScalars.

Local Open Scope Q_scope.

Lemma dle_Q (x y : Q) : dle x y = true <-> x <= y.
Proof. apply Qle_bool_iff. Qed.

Lemma dlt_Q (x y : Q) : dlt x y = true <-> x < y.
Proof.
  cbn. unfold Qlt_bool. rewrite negb_true_iff.
  split.
  - intros H. apply Qnot_le_lt. intros Hle. apply Qle_bool_iff in Hle. congruence.
  - intros H. destruct (Qle_bool y x) eqn:Hb; [|reflexivity].
    apply Qle_bool_iff in Hb. exfalso. exact (Qlt_not_le _ _ H Hb).
Qed.

Lemma dle_Q_false (x y : Q) : dle x y = false <-> y < x.
Proof.
  split.
  - intros H. apply Qnot_le_lt. intros Hle. apply dle_Q in Hle. congruence.
  - intros H. destruct (dle x y) eqn:Hb; [|reflexivity].
    apply dle_Q in Hb. exfalso. exact (Qlt_not_le _ _ H Hb).
Qed.

Lemma dlt_Q_false (x y : Q) : dlt x y = false <-> y <= x.
Proof.
  split.
  - intros H. apply Qnot_lt_le. intros Hlt. apply dlt_Q in Hlt. congruence.
  - intros H. destruct (dlt x y) eqn:Hb; [|reflexivity].
    apply dlt_Q in Hb. exfalso. exact (Qlt_not_le _ _ Hb H).
Qed.

Lemma isCompassAngle_Q (x : Q) : isCompassAngle x = true <-> 0 <= x < 360.
Proof.
  unfold isCompassAngle. rewrite andb_true_iff, dle_Q, dlt_Q. reflexivity.
Qed.

Lemma isCompassDiff_Q (x : Q) : isCompassDiff x = true <-> -180 < x <= 180.
Proof.
  unfold isCompassDiff. rewrite andb_true_iff, dlt_Q, dle_Q. reflexivity.
Qed.

End ExactScalars.

Section ExactArithmetic.

Local Open Scope Q_scope.

Implicit Types (E : Env Q) (b : Boat Q) (s : Q) (w : World).

(** In exact arithmetic, with a non-negative turn per tick, the heading
    controller keeps the heading a compass angle. *)
Lemma updateCourse_range E b s w :
  0 <= angle (v b) < 360 -> 0 <= desiredCourse b < 360 ->
  -180 < proteus_Compass_diff E (angle (v b)) (desiredCourse b) <= 180 ->
  0 <= BoatWindResponse_getCourseChangeRate E (boatType b) * s ->
  0 <= angle (v (fst (updateCourse E b s w))) < 360.
Proof.
  intros Ha Hc Hd Ht. unfold updateCourse.
  set (diff := proteus_Compass_diff E (angle (v b)) (desiredCourse b)) in *.
  set (turn := BoatWindResponse_getCourseChangeRate E (boatType b) * s) in *.
  exact_literals. fold turn.
  destruct (dle (Qabs diff) turn) eqn:Hsnap; [exact Hc|].
  apply dle_Q_false in Hsnap.
  assert (Hturn : turn < 180).
  { apply Qlt_le_trans with (1 := Hsnap). apply Qabs_Qle_condition. lra. }
  assert (Hwrap : forall x, -180 < x < 540 ->
            0 <= angle (v (wrapCourse (set_v_angle b x))) < 360).
  { intros x Hx. unfold wrapCourse. cbn [set_v_angle set_v v angle]. exact_literals.
    destruct (dlt x 0) eqn:H0; [|destruct (dle 360 x) eqn:H1];
      reflect_order dle_Q dle_Q_false dlt_Q dlt_Q_false; cbn [set_v_angle set_v v angle]; lra. }
  destruct (_ && _)%bool; [|destruct (_ && _)%bool;
    [|destruct (call_rand_r E w) as [r w']; destruct (Z.rem r 2 =? 0)%Z]];
    cbn [fst]; apply Hwrap; lra.
Qed.

(** In exact arithmetic a tick keeps the heading a compass angle, when the
    wind angle is one, the compass differences lie in (-180, 180] and the
    turn per tick is not negative. *)
Lemma Boat_advance_heading_range_exact E b s w :
  0 <= angle (v b) < 360 -> 0 <= desiredCourse b < 360 ->
  0 <= angle (wind (proteus_Weather_get E (pos b) true)) < 360 ->
  (forall a c, -180 < proteus_Compass_diff E a c <= 180) ->
  0 <= BoatWindResponse_getCourseChangeRate E (boatType b) * s ->
  0 <= angle (v (fst (Boat_advance E b s w))) < 360.
Proof.
  intros Ha Hc Hwind Hdiff Hturn.
  assert (Hsail : forall b0, pos b0 = pos b -> desiredCourse b0 = desiredCourse b ->
            boatType b0 = boatType b -> 0 <= angle (v b0) < 360 ->
            0 <= angle (v (fst (sail E b0 s w))) < 360).
  { intros b0 Ep Ec Et Ha0. unfold sail. rewrite Ep.
    destruct (proteus_Ocean_get E (pos b)) as [valid od].
    assert (Hmove : forall b1, angle (v (move E b1 s valid od)) = angle (v b1)).
    { intros b1. apply (move_fields E b1 s valid od). }
    destruct (sailsDown b0) eqn:Hd.
    - rewrite (steer_sailsDown E b0 s valid od w Hd). cbn [fst].
      rewrite Hmove. cbn [set_v v angle]. rewrite Ep. exact_literals.
      match goal with |- context [if ?c then _ else _] => destruct c eqn:H1 end;
        reflect_order dle_Q dle_Q_false dlt_Q dlt_Q_false; lra.
    - rewrite (steer_sailing E b0 s valid od w Hd). cbn [fst].
      rewrite Hmove. cbn [set_v v angle].
      apply updateCourse_range; rewrite ?Ec, ?Et; auto. }
  unfold Boat_advance.
  destruct (stop b); [exact Ha|].
  destruct (_ || _)%bool; [exact Ha|].
  destruct (movingToSea b) eqn:Hm; [|apply Hsail; auto].
  destruct (proteus_GeoInfo_isWater E (pos b)).
  - destruct (reachedWater_frame b) as (Fp & _ & Fc & _ & Ft & _).
    apply Hsail; auto.
    unfold reachedWater. cbn [setImmediateDesiredCourse set_movingToSea].
    destruct (setImmediateDesiredCourse b); [exact Hc|exact Ha].
  - destruct (Boat_isHeadingTowardWater E b); [exact Hc|exact Ha].
Qed.

(** C4. In normal sailing, with [heading] the heading the controller starts
    from (the stored heading, or [desiredCourse] when the boat has just
    reached water for the first time): if |diff| <= turnRate * dt, the heading
    after the tick is [desiredCourse] exactly and [rand_r] is not called.
    With diff in (-180, 180] and a turn per tick that is not negative,
    [rand_r] is called only when the turn does not snap and diff lies in
    (-180, -179) or (179, 180]; it is then called once. *)
Theorem Boat_advance_snap_and_tiebreak E b s w :
  stop b = false -> inPolarMargin (lat (pos b)) = false -> sailsDown b = false ->
  (movingToSea b = true -> proteus_GeoInfo_isWater E (pos b) = true) ->
  let heading := angle (v (atSea b)) in
  let diff := proteus_Compass_diff E heading (desiredCourse b) in
  let turn := BoatWindResponse_getCourseChangeRate E (boatType b) * s in
  let r := Boat_advance E b s w in
  heading = (if (movingToSea b && setImmediateDesiredCourse b)%bool
             then desiredCourse b else angle (v b))
  /\ (Qabs diff <= turn -> angle (v (fst r)) = desiredCourse b /\ snd r = w)
  /\ (-180 < diff <= 180 -> 0 <= turn ->
      randCalls (snd r) <> randCalls w ->
      ~ Qabs diff <= turn /\ (-180 < diff < -179 \/ 179 < diff <= 180))
  /\ (~ Qabs diff <= turn -> (-180 < diff < -179 \/ 179 < diff <= 180) ->
      randCalls (snd r) = S (randCalls w))
  /\ (proteus_Compass_diff E (desiredCourse b) (desiredCourse b) == 0 ->
      Qabs (proteus_Compass_diff E (angle (v b)) (desiredCourse b)) <= turn ->
      angle (v (fst r)) = desiredCourse b).
Proof.
  intros Hs Hp Hd Hw. cbv zeta.
  rewrite (Boat_advance_at_sea E b s w Hs Hp Hw).
  destruct (atSea_frame b) as (Fp & Fm & Fc & Fd & Ft & Fs & Fsd).
  assert (Hd0 : sailsDown (atSea b) = false) by (rewrite Fsd; exact Hd).
  unfold sail. destruct (proteus_Ocean_get E (pos (atSea b))) as [valid od].
  rewrite (steer_sailing E (atSea b) s valid od w Hd0). cbn [fst snd].
  assert (Hmove : forall b1, angle (v (move E b1 s valid od)) = angle (v b1)).
  { intros b1. apply (move_fields E b1 s valid od). }
  rewrite Hmove. cbn [set_v v angle].
  pose proof (updateCourse_randCalls E (atSea b) s w) as Hr. cbv zeta in Hr.
  rewrite Fc, Ft in Hr. exact_literals.
  set (diff := proteus_Compass_diff E (angle (v (atSea b))) (desiredCourse b)) in *.
  set (turn := BoatWindResponse_getCourseChangeRate E (boatType b) * s) in *.
  assert (Hsnapped : Qabs diff <= turn ->
            angle (v (fst (updateCourse E (atSea b) s w))) = desiredCourse b
            /\ snd (updateCourse E (atSea b) s w) = w).
  { intros Hsnap. apply dle_Q in Hsnap.
    rewrite updateCourse_snap by (rewrite Fc, Ft; exact Hsnap).
    cbn. split; [exact Fc|reflexivity]. }
  split; [apply atSea_angle|]. split; [exact Hsnapped|]. split; [|split].
  - intros Hrange Hturn Hcalled.
    destruct (dle (Qabs diff) turn) eqn:H1; [cbn in Hr; congruence|].
    destruct (dlt diff 0 && dle (- (179)) diff)%bool eqn:H2; [cbn in Hr; congruence|].
    destruct (dlt 0 diff && dle diff 179)%bool eqn:H3; [cbn in Hr; congruence|].
    apply dle_Q_false in H1.
    assert (Hnz : ~ diff == 0).
    { intros Hz. rewrite Hz in H1. cbn in H1. lra. }
    split; [lra|]. reflect_order dle_Q dle_Q_false dlt_Q dlt_Q_false; lra.
  - intros Hns Hset.
    rewrite Hr.
    replace (dle (Qabs diff) turn) with false
      by (symmetry; apply dle_Q_false; lra).
    replace (dlt diff 0 && dle (- (179)) diff)%bool with false.
    2:{ symmetry. apply andb_false_iff. rewrite dlt_Q_false, dle_Q_false. lra. }
    replace (dlt 0 diff && dle diff 179)%bool with false.
    2:{ symmetry. apply andb_false_iff. rewrite dlt_Q_false, dle_Q_false. lra. }
    reflexivity.
  - intros Hzero Hstored. apply Hsnapped. subst diff. rewrite atSea_angle.
    destruct (movingToSea b && setImmediateDesiredCourse b)%bool; [|exact Hstored].
    rewrite Hzero. apply Qle_trans with (2 := Hstored). apply Qabs_nonneg.
Qed.

(** C5, amended. With the sails down and a wind angle in [0, 360), the tick
    sets the heading to the wind angle plus 180 reduced modulo 360 and the
    speed to windMagnitude * 0.1 * iceFactor, iceFactor being 1 - ice/100 when
    the ocean data is valid and 1 otherwise.  Neither depends on
    [desiredCourse] or on the heading and speed before.  The position is
    moved with that speed.  It is the speed after the tick when the new
    position is water; when it is land the boat is stopped and its speed
    after the tick is 0. *)
Theorem Boat_advance_sailsDown E b s w :
  stop b = false -> inPolarMargin (lat (pos b)) = false -> sailsDown b = true ->
  (movingToSea b = true -> proteus_GeoInfo_isWater E (pos b) = true) ->
  0 <= angle (wind (proteus_Weather_get E (pos b) true)) < 360 ->
  let windVec := wind (proteus_Weather_get E (pos b) true) in
  let ocean := proteus_Ocean_get E (pos b) in
  let iceFactor := if fst ocean then 1 - ice (snd ocean) / 100 else 1 in
  let speed := mag windVec * (1 # 10) * iceFactor in
  let b' := fst (Boat_advance E b s w) in
  let step := {| angle := angle (v b'); mag := speed * s |} in
  let drift := {| angle := angle (current (snd ocean));
                  mag := mag (current (snd ocean)) * s |} in
  (exists k : Z, angle (v b') == angle windVec + 180 - 360 * inject_Z k)
  /\ 0 <= angle (v b') < 360
  /\ v (fst (steer E (atSea b) s (fst ocean) (snd ocean) w))
     = {| angle := angle (v b'); mag := speed |}
  /\ pos b' = (if fst ocean
               then proteus_GeoPos_advance E (proteus_GeoPos_advance E (pos b) step) drift
               else proteus_GeoPos_advance E (pos b) step)
  /\ mag (v b') = (if proteus_GeoInfo_isWater E (pos b') then speed else 0)
  /\ (forall course heading speed0,
        let b2 := {| pos := pos b; v := {| angle := heading; mag := speed0 |};
                     desiredCourse := course;
                     distanceTravelled := distanceTravelled b;
                     boatType := boatType b; stop := stop b;
                     sailsDown := sailsDown b; movingToSea := movingToSea b;
                     setImmediateDesiredCourse := setImmediateDesiredCourse b |} in
        v (fst (Boat_advance E b2 s w)) = v b'
        /\ pos (fst (Boat_advance E b2 s w)) = pos b').
Proof.
  intros Hs Hp Hd Hw Hwind. cbv zeta.
  assert (Hgen : forall b0, stop b0 = false -> pos b0 = pos b -> sailsDown b0 = true ->
            movingToSea b0 = movingToSea b ->
            let windVec := wind (proteus_Weather_get E (pos b) true) in
            let ocean := proteus_Ocean_get E (pos b) in
            let a := angle windVec + 180 in
            let u := {| angle := if dle 360 a then a - 360 else a;
                        mag := mag windVec * (1 # 10)
                               * (if fst ocean then 1 - ice (snd ocean) / 100 else 1) |} in
            let p' := if fst ocean
                      then proteus_GeoPos_advance E
                             (proteus_GeoPos_advance E (pos b)
                                {| angle := angle u; mag := mag u * s |})
                             {| angle := angle (current (snd ocean));
                                mag := mag (current (snd ocean)) * s |}
                      else proteus_GeoPos_advance E (pos b)
                             {| angle := angle u; mag := mag u * s |} in
            pos (fst (Boat_advance E b0 s w)) = p'
            /\ v (fst (Boat_advance E b0 s w)) =
               {| angle := angle u;
                  mag := if proteus_GeoInfo_isWater E p' then mag u else 0 |}).
  { intros b0 Hs0 Hp0 Hd0 Hm0. cbv zeta.
    assert (Hw0 : movingToSea b0 = true -> proteus_GeoInfo_isWater E (pos b0) = true)
      by (rewrite Hm0, Hp0; exact Hw).
    assert (Hpm : inPolarMargin (lat (pos b0)) = false) by (rewrite Hp0; exact Hp).
    rewrite (Boat_advance_at_sea E b0 s w Hs0 Hpm Hw0).
    destruct (atSea_frame b0) as (Fp & Fm & Fc & Fd & Ft & Fs & Fsd).
    unfold sail. rewrite Fp, Hp0.
    destruct (proteus_Ocean_get E (pos b)) as [valid od].
    rewrite steer_sailsDown by (rewrite Fsd; exact Hd0). cbn [fst snd].
    rewrite Fp, Hp0.
    match goal with |- context [move E ?b1 s valid od] =>
      pose proof (move_fields E b1 s valid od) as Hm end.
    cbv zeta in Hm. cbn [pos v angle mag set_v stop] in Hm. rewrite Fp, Hp0 in Hm.
    destruct Hm as (Mp & Ma & Mm & _).
    unfold oceanIceSpeedAdjustmentFactor in *. exact_literals.
    split; [exact Mp|].
    match goal with |- ?x = _ => destruct x as [xa xm] eqn:Hv end.
    cbn [angle mag] in Ma, Mm. rewrite Ma, Mm. reflexivity. }
  destruct (Hgen b Hs eq_refl Hd eq_refl) as [Gp Gv]. cbv zeta in Gp, Gv.
  rewrite Gp, Gv. cbn [angle mag].
  set (wa := angle (wind (proteus_Weather_get E (pos b) true))) in *.
  split; [|split; [|split; [|split; [|split]]]].
  - destruct (dle 360 (wa + 180)).
    + exists 1%Z. unfold inject_Z. lra.
    + exists 0%Z. unfold inject_Z. lra.
  - destruct (dle 360 (wa + 180)) eqn:H1;
      reflect_order dle_Q dle_Q_false dlt_Q dlt_Q_false; lra.
  - destruct (atSea_frame b) as (Fp & _ & _ & _ & _ & _ & Fsd).
    rewrite steer_sailsDown by (rewrite Fsd; exact Hd).
    cbn [fst set_v v]. rewrite Fp. reflexivity.
  - reflexivity.
  - reflexivity.
  - intros course heading speed0.
    match goal with |- context [Boat_advance E ?b2 s w] =>
      destruct (Hgen b2 Hs eq_refl Hd eq_refl) as [Gp2 Gv2] end.
    cbv zeta in Gp2, Gv2. rewrite Gp2, Gv2. split; reflexivity.
Qed.

(** C7. On a tick that reaches the move (the boat is not stopped, not in the
    polar margin and not on land while moving to sea), with [b1] the boat
    carrying the velocity the tick has just set: the position is moved by
    the velocity scaled by dt and then, when the ocean data is valid, by the
    current scaled by dt; [distanceTravelled] grows by the magnitude of the
    sum of the two vectors when the ocean data is valid and by the absolute
    value of the magnitude of the scaled velocity otherwise; with a vector
    sum whose magnitude is never negative, it does not decrease. *)
Theorem Boat_advance_distanceTravelled E b s w :
  stop b = false -> inPolarMargin (lat (pos b)) = false ->
  (movingToSea b = true -> proteus_GeoInfo_isWater E (pos b) = true) ->
  (forall a c, 0 <= mag (proteus_GeoVec_add E a c)) ->
  let ocean := proteus_Ocean_get E (pos b) in
  let b1 := fst (steer E (atSea b) s (fst ocean) (snd ocean) w) in
  let step := {| angle := angle (v b1); mag := mag (v b1) * s |} in
  let drift := {| angle := angle (current (snd ocean));
                  mag := mag (current (snd ocean)) * s |} in
  let b' := fst (Boat_advance E b s w) in
  distanceTravelled b' =
    distanceTravelled b
    + (if fst ocean then mag (proteus_GeoVec_add E drift step) else Qabs (mag step))
  /\ distanceTravelled b <= distanceTravelled b'
  /\ pos b' = (if fst ocean
               then proteus_GeoPos_advance E (proteus_GeoPos_advance E (pos b) step) drift
               else proteus_GeoPos_advance E (pos b) step).
Proof.
  intros Hs Hp Hw Hadd. cbv zeta.
  rewrite (Boat_advance_at_sea E b s w Hs Hp Hw).
  destruct (atSea_frame b) as (Fp & Fm & Fc & Fd & Ft & Fs & Fsd).
  unfold sail. rewrite Fp.
  destruct (proteus_Ocean_get E (pos b)) as [valid od]. cbn [fst snd].
  assert (Hframe : pos (fst (steer E (atSea b) s valid od w)) = pos b
                   /\ distanceTravelled (fst (steer E (atSea b) s valid od w))
                      = distanceTravelled b).
  { destruct (sailsDown (atSea b)) eqn:Hd.
    - rewrite (steer_sailsDown E (atSea b) s valid od w Hd). cbn. auto.
    - rewrite (steer_sailing E (atSea b) s valid od w Hd). cbn. auto. }
  destruct Hframe as [Sp Sd].
  destruct (steer E (atSea b) s valid od w) as [b1 w1]. cbn [fst snd] in *.
  destruct (move_fields E b1 s valid od) as (Mp & _ & _ & _ & Md & _).
  rewrite Sp in Mp. rewrite Sd in Md. exact_literals.
  rewrite Mp, Md. split; [reflexivity|]. split; [|reflexivity].
  destruct valid.
  - specialize (Hadd {| angle := angle (current od); mag := mag (current od) * s |}
                     {| angle := angle (v b1); mag := mag (v b1) * s |}). lra.
  - pose proof (Qabs_nonneg (mag {| angle := angle (v b1); mag := mag (v b1) * s |})).
    lra.
Qed.

End ExactArithmetic.

(** ** The properties at concrete inputs *)

(** C1 on a boat as [Boat_new] returns it, over two ticks in different
    waters. *)
Lemma Boat_advance_stopped_unchanged_witness :
  let b := Boat_new (dconst 45 0) (dconst 7 0) 1 : Boat float in
  stop b = true
  /\ Boat_run [(calmSea, dconst 1 0); (icySea, dconst 25 1)] (b, world0) = (b, world0).
Proof.
  cbv zeta. split; [reflexivity|].
  apply (Boat_advance_stopped_unchanged (Boat_new (dconst 45 0) (dconst 7 0) 1)).
  reflexivity.
Defined.

(** C2 on a boat at latitude 89.99995 with the sails down and moving to sea. *)
Lemma Boat_advance_polar_stop_witness :
  let b := polarBoat (dconst 30 0) (dconst 5 0) c_90 true true true : Boat float in
  stop b = false /\ inPolarMargin (lat (pos b)) = true
  /\ stop (fst (Boat_advance icySea b c_1 world0)) = true.
Proof.
  cbv zeta. split; [reflexivity|]. split; [reflexivity|].
  rewrite (@Boat_advance_polar_stop float Scalar_float icySea
             (polarBoat (dconst 30 0) (dconst 5 0) c_90 true true true) c_1 world0);
    reflexivity.
Defined.

(** C6 on a boat heading 0 at speed 1 in [icySea], to steer 90. *)
Lemma Boat_advance_speed_model_witness :
  let b := toyBoat c_0 c_1 c_90 false false false : Boat float in
  stop b = false /\ inPolarMargin (lat (pos b)) = false /\ sailsDown b = false
  /\ movingToSea b = false
  /\ stop (fst (Boat_advance icySea b c_1 world0))
     = negb (proteus_GeoInfo_isWater icySea (pos (fst (Boat_advance icySea b c_1 world0)))).
Proof.
  cbv zeta. repeat (split; [reflexivity|]).
  apply (@Boat_advance_speed_model float Scalar_float icySea
           (toyBoat c_0 c_1 c_90 false false false) c_1 world0);
    reflexivity.
Defined.

(** C6 as stated fails when the boat runs aground.  Off [leeShore] the speed
    model gives (1 * 0 + 1 * 4) / (1 + 1) = 2; the move takes the boat to
    longitude 2, which is land, and the speed after the tick is 0. *)
Lemma Boat_advance_speed_model_grounded :
  let E := leeShore : Env float in
  let b := toyBoat c_0 c_0 c_0 false false false : Boat float in
  let s := c_1 : float in
  let windVec := wind (proteus_Weather_get E (pos b) true) in
  let targetSpeed :=
    (BoatWindResponse_getBoatSpeed E (mag windVec)
       (proteus_Compass_diff E (angle windVec) (angle (v b))) (boatType b) * c_1)%D in
  let tau := BoatWindResponse_getSpeedChangeResponse E (boatType b) in
  stop b = false /\ inPolarMargin (lat (pos b)) = false /\ sailsDown b = false
  /\ movingToSea b = false /\ fst (proteus_Ocean_get E (pos b)) = false
  /\ angle (v (fst (Boat_advance E b s world0))) = angle (v b)
  /\ ((tau * mag (v b) + s * targetSpeed) / (tau + s))%D = dconst 2 0
  /\ mag (v (fst (Boat_advance E b s world0))) = c_0
  /\ mag (v (fst (Boat_advance E b s world0)))
     <> ((tau * mag (v b) + s * targetSpeed) / (tau + s))%D.
Proof.
  cbv zeta. repeat (split; [reflexivity|]). float_neq.
Qed.

(** C8 on a beach with the water 40 away: the fifth sample is water, and a
    tick of 2 moves the boat by 1. *)
Lemma Boat_advance_land_approach_witness :
  let b := toyBoat c_0 c_0 c_90 false true true : Boat float in
  stop b = false /\ inPolarMargin (lat (pos b)) = false /\ movingToSea b = true
  /\ proteus_GeoInfo_isWater beach (pos b) = false
  /\ proteus_GeoInfo_isWater beach (probeSample beach b 4) = true
  /\ Boat_advance beach b (dconst 2 0) world0 =
     ({| pos := {| lat := c_0; lon := c_1 |};
         v := {| angle := c_90; mag := c_1 |};
         desiredCourse := c_90; distanceTravelled := c_0; boatType := 0;
         stop := false; sailsDown := false; movingToSea := true;
         setImmediateDesiredCourse := true |}, world0).
Proof.
  cbv zeta.
  assert (Hp : inPolarMargin (lat (pos (toyBoat c_0 c_0 c_90 false true true : Boat float)))
               = false) by reflexivity.
  assert (Hw : proteus_GeoInfo_isWater beach
                 (pos (toyBoat c_0 c_0 c_90 false true true : Boat float)) = false)
    by reflexivity.
  repeat (split; [reflexivity|]).
  rewrite (proj1 (@Boat_advance_land_approach float Scalar_float beach
                    (toyBoat c_0 c_0 c_90 false true true) (dconst 2 0) world0
                    eq_refl Hp eq_refl Hw)).
  - reflexivity.
  - exists 4%nat. split; [repeat constructor|reflexivity].
Defined.

(** Far inland the probe finds no water and the tick stops the boat. *)
Example Boat_advance_inland_stops :
  let b := toyBoat c_0 c_0 c_90 false true true : Boat float in
  Boat_isHeadingTowardWater inland b = false
  /\ Boat_advance inland b (dconst 2 0) world0 = (stopBoat b, world0).
Proof. split; reflexivity. Qed.

(** C10 on the same beach. *)
Lemma Boat_advance_land_approach_frame_witness :
  let b := toyBoat c_0 c_0 c_90 false true true : Boat float in
  stop b = false /\ inPolarMargin (lat (pos b)) = false /\ movingToSea b = true
  /\ proteus_GeoInfo_isWater beach (pos b) = false
  /\ Boat_isHeadingTowardWater beach b = true
  /\ distanceTravelled (fst (Boat_advance beach b (dconst 2 0) world0))
     = distanceTravelled b.
Proof.
  cbv zeta. repeat (split; [reflexivity|]).
  apply (@Boat_advance_land_approach_frame float Scalar_float beach
           (toyBoat c_0 c_0 c_90 false true true) (dconst 2 0) world0);
    reflexivity.
Defined.

(** C9 as stated fails: [Boat_new] has no argument for [stop] and never
    returns a boat with [stop] clear, so the flag is not the caller's to
    choose. *)
Lemma Boat_new_stop_not_chosen :
  ~ (forall want : bool,
       exists (lat0 lon0 : float) (ty : Z), stop (Boat_new lat0 lon0 ty) = want).
Proof.
  intros H. destruct (H false) as (lat0 & lon0 & ty & Hf). discriminate Hf.
Qed.

(** C3. In binary64 a left turn can end at exactly 360.  The boat heads 0.3
    and is to steer 359; it turns at 3 degrees per unit of time and the tick
    lasts 0.1.  The heading, the course and the wind angle are compass
    angles, the compass differences of the environment lie in (-180, 180],
    the difference here is -1.3, so the boat turns left: 0.3 - 3 * 0.1 is
    about -5.6e-17, and adding 360 to it rounds to 360. *)
Theorem Boat_advance_heading_360 :
  let E := calmSea : Env float in
  let b := toyBoat (dconst 3 1) c_0 (dconst 359 0) false false false : Boat float in
  let s := dconst 1 1 : float in
  stop b = false
  /\ isCompassAngle (angle (v b)) = true
  /\ isCompassAngle (desiredCourse b) = true
  /\ isCompassAngle (angle (wind (proteus_Weather_get E (pos b) true))) = true
  /\ (forall a c, isCompassDiff (proteus_Compass_diff E a c) = true)
  /\ (c_0 <? BoatWindResponse_getCourseChangeRate E (boatType b) * s)%D = true
  /\ angle (v (fst (Boat_advance E b s world0))) = c_360
  /\ isCompassAngle (angle (v (fst (Boat_advance E b s world0)))) = false.
Proof.
  cbv zeta. repeat (split; [reflexivity|]).
  split; [|repeat (split; [reflexivity|]); reflexivity].
  intros a c. unfold calmSea, toyEnv. cbn [proteus_Compass_diff]. unfold toy_diff.
  match goal with |- context [if isCompassDiff ?d then _ else _] =>
    destruct (isCompassDiff d) eqn:Hd end; [exact Hd|reflexivity].
Qed.

(** The two heading scenarios of the specification, in exact arithmetic: at
    10 degrees per unit of time and dt = 1, a boat heading 0 that is to steer
    90 ends the tick heading 10, and one that is to steer 5 ends it heading
    5. *)
Example Boat_advance_turns_then_snaps :
  let E := toyEnv (- dconst 1000 0) (dconst 1000 0) {| angle := c_0; mag := c_0 |}
             noOcean c_10 c_0 c_1 0 : Env Q in
  (angle (v (fst (Boat_advance E (toyBoat c_0 c_0 c_90 false false false) c_1 world0)))
   == 10)%Q
  /\ angle (v (fst (Boat_advance E (toyBoat c_0 c_0 (dconst 5 0) false false false)
                      c_1 world0)))
     = dconst 5 0.
Proof. split; reflexivity. Qed.

(** C4 on a boat heading 0 that is to steer 2 and turns 3 per tick. *)
Lemma Boat_advance_snap_and_tiebreak_witness :
  let b := toyBoat c_0 c_1 (dconst 2 0) false false false : Boat Q in
  stop b = false /\ inPolarMargin (lat (pos b)) = false /\ sailsDown b = false
  /\ movingToSea b = false
  /\ angle (v (fst (Boat_advance calmSea b c_1 world0))) = desiredCourse b.
Proof.
  cbv zeta. repeat (split; [reflexivity|]).
  apply (@Boat_advance_snap_and_tiebreak calmSea
           (toyBoat c_0 c_1 (dconst 2 0) false false false) c_1 world0);
    try reflexivity.
  apply dle_Q. reflexivity.
Defined.

(** C5 in [icySea], with the wind from 90. *)
Lemma Boat_advance_sailsDown_witness :
  let b := toyBoat c_0 c_1 (dconst 2 0) true false false : Boat Q in
  stop b = false /\ inPolarMargin (lat (pos b)) = false /\ sailsDown b = true
  /\ movingToSea b = false
  /\ (0 <= angle (wind (proteus_Weather_get icySea (pos b) true)) < 360)%Q
  /\ (0 <= angle (v (fst (Boat_advance icySea b c_1 world0))) < 360)%Q.
Proof.
  cbv zeta.
  assert (Hwind : (0 <= angle (wind (proteus_Weather_get icySea
                     (pos (toyBoat c_0 c_1 (dconst 2 0) true false false : Boat Q)) true))
                   < 360)%Q) by (apply isCompassAngle_Q; reflexivity).
  repeat (split; [reflexivity|]). split; [exact Hwind|].
  apply (@Boat_advance_sailsDown icySea
           (toyBoat c_0 c_1 (dconst 2 0) true false false) c_1 world0);
    solve [reflexivity | exact Hwind].
Defined.

(** C5 as stated fails when the boat runs aground.  Off [leeShore], with the
    sails down and no ocean data, the speed set from the wind is
    20 * 0.1 * 1 = 2; the move takes the boat to longitude 2, which is land,
    and the speed after the tick is 0. *)
Lemma Boat_advance_sailsDown_grounded :
  let E := leeShore : Env Q in
  let b := toyBoat c_0 c_0 c_0 true false false : Boat Q in
  let s := c_1 : Q in
  let windVec := wind (proteus_Weather_get E (pos b) true) in
  stop b = false /\ inPolarMargin (lat (pos b)) = false /\ sailsDown b = true
  /\ movingToSea b = false /\ fst (proteus_Ocean_get E (pos b)) = false
  /\ (angle (v (fst (Boat_advance E b s world0))) == 270)%Q
  /\ (mag windVec * (1 # 10) * 1 == 2)%Q
  /\ (mag (v (fst (Boat_advance E b s world0))) == 0)%Q
  /\ ~ (mag (v (fst (Boat_advance E b s world0))) == mag windVec * (1 # 10) * 1)%Q.
Proof.
  cbv zeta. repeat (split; [reflexivity|]).
  intros H. vm_compute in H. discriminate H.
Qed.

(** C7 in [icySea], where the ocean data is valid. *)
Lemma Boat_advance_distanceTravelled_witness :
  let b := toyBoat c_0 c_1 (dconst 5 0) false false false : Boat Q in
  stop b = false /\ inPolarMargin (lat (pos b)) = false /\ movingToSea b = false
  /\ (forall a c, 0 <= mag (proteus_GeoVec_add icySea a c))%Q
  /\ (distanceTravelled b <= distanceTravelled (fst (Boat_advance icySea b c_1 world0)))%Q.
Proof.
  cbv zeta.
  assert (Hadd : (forall a c, 0 <= mag (proteus_GeoVec_add (icySea : Env Q) a c))%Q).
  { intros a c. apply Qabs_nonneg. }
  repeat (split; [reflexivity|]). split; [exact Hadd|].
  apply (@Boat_advance_distanceTravelled icySea
           (toyBoat c_0 c_1 (dconst 5 0) false false false) c_1 world0);
    solve [reflexivity | exact Hadd].
Defined.

(** ** What every tick keeps

    Properties of [Boat_advance] on all its paths, for every scalar type. *)

Section TickInvariants.

Context {D : Type} {SD : Scalar D}.
Local Open Scope scalar_scope.

Implicit Types (E : Env D) (b : Boat D) (s : D) (w : World).

(** The new velocity is all that lines 130-153 assign. *)
Lemma steer_set_v E b s (valid : bool) (od : proteus_OceanData D) w :
  fst (steer E b s valid od w) = set_v b (v (fst (steer E b s valid od w))).
Proof.
  destruct (sailsDown b) eqn:Hd.
  - rewrite (steer_sailsDown E b s valid od w Hd). reflexivity.
  - rewrite (steer_sailing E b s valid od w Hd). reflexivity.
Qed.

(** Lines 127-181 on a boat [b]: what they assign and what they keep. *)
Lemma sail_fields E b s w :
  let ocean := proteus_Ocean_get E (pos b) in
  let b1 := fst (steer E b s (fst ocean) (snd ocean) w) in
  let step := {| angle := angle (v b1); mag := mag (v b1) * s |} in
  let drift := {| angle := angle (current (snd ocean));
                  mag := mag (current (snd ocean)) * s |} in
  let p' := if fst ocean
            then proteus_GeoPos_advance E (proteus_GeoPos_advance E (pos b) step) drift
            else proteus_GeoPos_advance E (pos b) step in
  let b' := fst (sail E b s w) in
  pos b' = p'
  /\ angle (v b') = angle (v b1)
  /\ mag (v b') = (if proteus_GeoInfo_isWater E p' then mag (v b1) else c_0)
  /\ stop b' = (if proteus_GeoInfo_isWater E p' then stop b else true)
  /\ distanceTravelled b' =
     distanceTravelled b
     + (if fst ocean then mag (proteus_GeoVec_add E drift step) else dabs (mag step))
  /\ desiredCourse b' = desiredCourse b /\ boatType b' = boatType b
  /\ sailsDown b' = sailsDown b /\ movingToSea b' = movingToSea b
  /\ setImmediateDesiredCourse b' = setImmediateDesiredCourse b
  /\ snd (sail E b s w) = snd (steer E b s (fst ocean) (snd ocean) w).
Proof.
  cbv zeta. unfold sail.
  destruct (proteus_Ocean_get E (pos b)) as [valid od]. cbn [fst snd].
  pose proof (steer_set_v E b s valid od w) as Hst.
  destruct (steer E b s valid od w) as [b1 w1]. cbn [fst snd] in *.
  set (u := v b1) in *. clearbody u. subst b1.
  destruct (move_fields E (set_v b u) s valid od)
    as (Mp & Ma & Mm & Ms & Md & Mc & Mt & Msd & Mms & Msi).
  cbn [set_v pos v stop distanceTravelled desiredCourse boatType sailsDown
       movingToSea setImmediateDesiredCourse] in *.
  repeat split; assumption.
Qed.

(** X1. No sequence of ticks changes [desiredCourse], [boatType] or
    [sailsDown]: they are the pilot's and the caller's to set. *)
Theorem Boat_run_keeps_course_type_sails (ticks : list (Env D * D)) b w :
  let b' := fst (Boat_run ticks (b, w)) in
  desiredCourse b' = desiredCourse b /\ boatType b' = boatType b
  /\ sailsDown b' = sailsDown b.
Proof.
  cbv zeta.
  assert (Htick : forall E b s w,
            desiredCourse (fst (Boat_advance E b s w)) = desiredCourse b
            /\ boatType (fst (Boat_advance E b s w)) = boatType b
            /\ sailsDown (fst (Boat_advance E b s w)) = sailsDown b).
  { clear. intros E b s w.
    assert (Hsail : forall b0, desiredCourse b0 = desiredCourse b ->
              boatType b0 = boatType b -> sailsDown b0 = sailsDown b ->
              desiredCourse (fst (sail E b0 s w)) = desiredCourse b
              /\ boatType (fst (sail E b0 s w)) = boatType b
              /\ sailsDown (fst (sail E b0 s w)) = sailsDown b).
    { intros b0 Ec Et Ed.
      destruct (sail_fields E b0 s w) as (_ & _ & _ & _ & _ & Sc & St & Sd & _).
      rewrite Sc, St, Sd. auto. }
    unfold Boat_advance.
    destruct (stop b); [auto|].
    destruct (_ || _); [auto|].
    destruct (movingToSea b); [|apply Hsail; reflexivity].
    destruct (proteus_GeoInfo_isWater E (pos b)).
    - destruct (reachedWater_frame b) as (_ & _ & Fc & _ & Ft & _ & Fsd).
      apply Hsail; assumption.
    - destruct (Boat_isHeadingTowardWater E b); auto. }
  revert b w. induction ticks as [|[E s] ticks IH]; intros b w; [auto|].
  unfold Boat_run in *. cbn [fold_left fst snd].
  destruct (Boat_advance E b s w) as [b1 w1] eqn:Hb.
  destruct (Htick E b s w) as (Tc & Tt & Td). rewrite Hb in Tc, Tt, Td.
  cbn [fst] in *. destruct (IH b1 w1) as (Ic & It & Id).
  rewrite Ic, It, Id. auto.
Qed.

(** X2. The two start-up flags after a tick.  [movingToSea] is cleared
    exactly by a tick that finds the boat (not stopped, outside the polar
    margin) on water; the same ticks, and no others, clear
    [setImmediateDesiredCourse].  No tick sets either flag. *)
Theorem Boat_advance_startup_flags E b s w :
  let landed := negb (stop b) && negb (inPolarMargin (lat (pos b)))
                && movingToSea b && proteus_GeoInfo_isWater E (pos b) in
  let b' := fst (Boat_advance E b s w) in
  movingToSea b' = movingToSea b && negb landed
  /\ setImmediateDesiredCourse b' = setImmediateDesiredCourse b && negb landed.
Proof.
  cbv zeta. unfold Boat_advance, inPolarMargin.
  destruct (stop b) eqn:Hs; cbn [negb andb].
  { rewrite !andb_true_r. auto. }
  destruct (_ || _); cbn [negb andb].
  { rewrite !andb_true_r. auto. }
  destruct (movingToSea b) eqn:Hm; cbn [negb andb].
  - destruct (proteus_GeoInfo_isWater E (pos b)); cbn [negb andb].
    + destruct (sail_fields E (reachedWater b) s w)
        as (_ & _ & _ & _ & _ & _ & _ & _ & Sm & Si & _).
      rewrite Sm, Si, andb_false_r. unfold reachedWater.
      cbn [setImmediateDesiredCourse set_movingToSea].
      destruct (setImmediateDesiredCourse b) eqn:Hi; cbn; rewrite ?Hi; auto.
    + rewrite andb_true_r.
      destruct (Boat_isHeadingTowardWater E b); cbn; auto.
  - destruct (sail_fields E b s w) as (_ & _ & _ & _ & _ & _ & _ & _ & Sm & Si & _).
    rewrite Sm, Si, Hm, andb_true_r. auto.
Qed.

(** X3. A stopped boat is at rest.  A tick that stops a boat leaves it with
    speed 0; hence, over any sequence of ticks, a boat whose speed is 0 if it
    starts stopped has speed 0 whenever it ends stopped. *)
Theorem Boat_run_stopped_at_rest (ticks : list (Env D * D)) b w :
  (stop b = true -> mag (v b) = c_0) ->
  let b' := fst (Boat_run ticks (b, w)) in
  stop b' = true -> mag (v b') = c_0.
Proof.
  cbv zeta.
  assert (Htick : forall E b s w,
            (stop b = true -> mag (v b) = c_0) ->
            stop (fst (Boat_advance E b s w)) = true ->
            mag (v (fst (Boat_advance E b s w))) = c_0).
  { clear. intros E b s w Hrest.
    assert (Hsail : forall b0, stop b0 = false ->
              stop (fst (sail E b0 s w)) = true ->
              mag (v (fst (sail E b0 s w))) = c_0).
    { intros b0 Hs0.
      destruct (sail_fields E b0 s w) as (_ & _ & Sm & Ss & _).
      rewrite Sm, Ss, Hs0.
      match goal with |- context [if ?c then _ else _] => destruct c end;
        [discriminate|reflexivity]. }
    unfold Boat_advance.
    destruct (stop b) eqn:Hs; [cbn [fst]; intros _; auto|].
    destruct (_ || _); [reflexivity|].
    destruct (movingToSea b); [|apply Hsail; exact Hs].
    destruct (proteus_GeoInfo_isWater E (pos b)).
    - apply Hsail. destruct (reachedWater_frame b) as (_ & _ & _ & _ & _ & Fs & _).
      rewrite Fs. exact Hs.
    - destruct (Boat_isHeadingTowardWater E b); [|reflexivity].
      cbn. rewrite Hs. discriminate. }
  revert b w. induction ticks as [|[E s] ticks IH]; intros b w Hrest; [exact Hrest|].
  unfold Boat_run in *. cbn [fold_left fst snd].
  destruct (Boat_advance E b s w) as [b1 w1] eqn:Hb.
  apply IH. pose proof (Htick E b s w Hrest) as Ht. rewrite Hb in Ht. exact Ht.
Qed.

(** X4. Grounding.  On a tick that reaches the move (the boat is not stopped,
    not in the polar margin and not on land while moving to sea), with the
    sails up or down, the boat ends the tick stopped exactly when its new
    position is land: a boat still under way is on water. *)
Theorem Boat_advance_grounding E b s w :
  stop b = false -> inPolarMargin (lat (pos b)) = false ->
  (movingToSea b = true -> proteus_GeoInfo_isWater E (pos b) = true) ->
  let b' := fst (Boat_advance E b s w) in
  stop b' = negb (proteus_GeoInfo_isWater E (pos b'))
  /\ (stop b' = false -> proteus_GeoInfo_isWater E (pos b') = true)
  /\ (stop b' = true -> mag (v b') = c_0).
Proof.
  intros Hs Hp Hw. cbv zeta.
  rewrite (Boat_advance_at_sea E b s w Hs Hp Hw).
  destruct (atSea_frame b) as (_ & _ & _ & _ & _ & Fs & _).
  destruct (sail_fields E (atSea b) s w) as (Sp & _ & Sm & Ss & _).
  rewrite Sp, Sm, Ss, Fs, Hs.
  match goal with |- context [proteus_GeoInfo_isWater E ?p] =>
    destruct (proteus_GeoInfo_isWater E p) end; cbn; repeat split; congruence.
Qed.

(** X5. A tick calls [rand_r] at most once.  Either the random seed is as
    before, or the boat was under way with the sails up and the seed is the
    one a single call of [rand_r] leaves. *)
Theorem Boat_advance_rand_r_once E b s w :
  snd (Boat_advance E b s w) = w
  \/ (stop b = false /\ sailsDown b = false
      /\ snd (Boat_advance E b s w) =
         {| _randSeed := snd (rand_r E (_randSeed w));
            randCalls := S (randCalls w) |}).
Proof.
  assert (Hcourse : forall b0,
            snd (updateCourse E b0 s w) = w
            \/ snd (updateCourse E b0 s w) =
               {| _randSeed := snd (rand_r E (_randSeed w));
                  randCalls := S (randCalls w) |}).
  { intros b0. unfold updateCourse.
    destruct (dabs _ <=? _); [auto|].
    destruct (_ && _); [auto|]. destruct (_ && _); [auto|].
    unfold call_rand_r. destruct (rand_r E (_randSeed w)) as [r seed'].
    destruct (Z.rem r 2 =? 0)%Z; auto. }
  assert (Hsail : forall b0, stop b = false -> sailsDown b0 = sailsDown b ->
            snd (sail E b0 s w) = w
            \/ (stop b = false /\ sailsDown b = false
                /\ snd (sail E b0 s w) =
                   {| _randSeed := snd (rand_r E (_randSeed w));
                      randCalls := S (randCalls w) |})).
  { intros b0 Hs Ed.
    destruct (sail_fields E b0 s w) as (_ & _ & _ & _ & _ & _ & _ & _ & _ & _ & Sw).
    rewrite Sw. destruct (sailsDown b0) eqn:Hd.
    - rewrite (steer_sailsDown E b0 s _ _ w Hd). auto.
    - rewrite (steer_sailing E b0 s _ _ w Hd). cbn [snd].
      destruct (Hcourse b0) as [H|H]; rewrite H; auto. }
  unfold Boat_advance.
  destruct (stop b) eqn:Hs; [auto|].
  destruct (_ || _); [auto|].
  destruct (movingToSea b); [|apply Hsail; auto].
  destruct (proteus_GeoInfo_isWater E (pos b)).
  - apply Hsail; [reflexivity|apply reachedWater_frame].
  - destruct (Boat_isHeadingTowardWater E b); auto.
Qed.

(** X10. The probe [Boat_isHeadingTowardWater] answers true exactly when one
    of its twelve samples is water.  A boat that stands on water gets true
    without a step; the answer depends on the boat through its position and
    its [desiredCourse] only. *)
Theorem Boat_isHeadingTowardWater_spec E b :
  (Boat_isHeadingTowardWater E b = true <->
   exists k, (k <= 11)%nat /\ proteus_GeoInfo_isWater E (probeSample E b k) = true)
  /\ (proteus_GeoInfo_isWater E (pos b) = true -> Boat_isHeadingTowardWater E b = true)
  /\ (forall b2, pos b2 = pos b -> desiredCourse b2 = desiredCourse b ->
                 Boat_isHeadingTowardWater E b2 = Boat_isHeadingTowardWater E b).
Proof.
  split; [apply Boat_isHeadingTowardWater_samples|]. split.
  - intros Hw. apply Boat_isHeadingTowardWater_samples.
    exists 0%nat. split; [lia|exact Hw].
  - intros b2 Ep Ec. unfold Boat_isHeadingTowardWater. rewrite Ep, Ec. reflexivity.
Qed.

End TickInvariants.

(** ** What the laws of motion give, in exact arithmetic *)

Section ExactMotion.

Local Open Scope Q_scope.

Implicit Types (E : Env Q) (b : Boat Q) (s : Q) (w : World).

(** X6. The direction and the size of a turn.  In normal sailing, from a
    compass heading, with a turn per tick that is not negative and smaller
    than |diff| (no snap): for diff in [-179, 0) the boat turns left by the
    turn, for diff in (0, 179] right, in both cases without a call of
    [rand_r]; otherwise [rand_r] decides, an even result turning left and an
    odd one right.  A left turn below 0 and a right turn to 360 or beyond are
    brought back by one full circle. *)
Theorem Boat_advance_turn E b s w :
  stop b = false -> inPolarMargin (lat (pos b)) = false -> sailsDown b = false ->
  (movingToSea b = true -> proteus_GeoInfo_isWater E (pos b) = true) ->
  let heading := angle (v (atSea b)) in
  let diff := proteus_Compass_diff E heading (desiredCourse b) in
  let turn := BoatWindResponse_getCourseChangeRate E (boatType b) * s in
  0 <= heading < 360 -> 0 <= turn < Qabs diff ->
  let r := Boat_advance E b s w in
  (-179 <= diff < 0 ->
   angle (v (fst r)) = turnedLeft heading turn /\ snd r = w)
  /\ (0 < diff <= 179 ->
      angle (v (fst r)) = turnedRight heading turn /\ snd r = w)
  /\ (diff < -179 \/ 179 < diff ->
      angle (v (fst r)) =
      (if (Z.rem (fst (rand_r E (_randSeed w))) 2 =? 0)%Z
       then turnedLeft heading turn else turnedRight heading turn)
      /\ randCalls (snd r) = S (randCalls w))
  /\ (turnedLeft heading turn == heading - turn
      \/ turnedLeft heading turn == heading - turn + 360)
  /\ (turnedRight heading turn == heading + turn
      \/ turnedRight heading turn == heading + turn - 360).
Proof.
  intros Hs Hp Hd Hw. cbv zeta. intros Hh Ht.
  rewrite (Boat_advance_at_sea E b s w Hs Hp Hw).
  destruct (atSea_frame b) as (Fp & Fm & Fc & Fd & Ft & Fs & Fsd).
  assert (Hd0 : sailsDown (atSea b) = false) by (rewrite Fsd; exact Hd).
  destruct (sail_fields E (atSea b) s w) as (_ & Sa & _ & _ & _ & _ & _ & _ & _ & _ & Sw).
  rewrite Sa, Sw, (steer_sailing E (atSea b) s _ _ w Hd0). cbn [fst snd set_v v angle].
  unfold updateCourse. rewrite Fc, Ft. exact_literals.
  set (h := angle (v (atSea b))) in *.
  set (diff := proteus_Compass_diff E h (desiredCourse b)) in *.
  set (turn := BoatWindResponse_getCourseChangeRate E (boatType b) * s) in *.
  replace (dle (Qabs diff) turn) with false by (symmetry; apply dle_Q_false; lra).
  assert (HL : angle (v (wrapCourse (set_v_angle (atSea b) (h - turn))))
               = turnedLeft h turn).
  { unfold wrapCourse, turnedLeft. cbn [set_v_angle set_v v angle]. exact_literals.
    destruct (dlt (h - turn) 0) eqn:H0; [reflexivity|].
    replace (dle 360 (h - turn)) with false by (symmetry; apply dle_Q_false; lra).
    reflexivity. }
  assert (HR : angle (v (wrapCourse (set_v_angle (atSea b) (h + turn))))
               = turnedRight h turn).
  { unfold wrapCourse, turnedRight. cbn [set_v_angle set_v v angle]. exact_literals.
    replace (dlt (h + turn) 0) with false by (symmetry; apply dlt_Q_false; lra).
    destruct (dle 360 (h + turn)) eqn:H1; reflexivity. }
  split; [|split; [|split; [|split]]].
  - intros Hdiff.
    replace (dlt diff 0 && dle (- (179)) diff)%bool with true.
    2:{ symmetry. apply andb_true_iff. rewrite dlt_Q, dle_Q. lra. }
    cbn [fst snd]. split; [exact HL|reflexivity].
  - intros Hdiff.
    replace (dlt diff 0 && dle (- (179)) diff)%bool with false.
    2:{ symmetry. apply andb_false_iff. rewrite dlt_Q_false. left. lra. }
    replace (dlt 0 diff && dle diff 179)%bool with true.
    2:{ symmetry. apply andb_true_iff. rewrite dlt_Q, dle_Q. lra. }
    cbn [fst snd]. split; [exact HR|reflexivity].
  - intros Hdiff.
    replace (dlt diff 0 && dle (- (179)) diff)%bool with false.
    2:{ symmetry. apply andb_false_iff. rewrite dlt_Q_false, dle_Q_false. lra. }
    replace (dlt 0 diff && dle diff 179)%bool with false.
    2:{ symmetry. apply andb_false_iff. rewrite dlt_Q_false, dle_Q_false. lra. }
    unfold call_rand_r. destruct (rand_r E (_randSeed w)) as [coin seed'].
    cbn [fst]. destruct (Z.rem coin 2 =? 0)%Z; cbn [fst snd randCalls];
      split; solve [exact HL | exact HR | reflexivity].
  - unfold turnedLeft. exact_literals.
    destruct (dlt (h - turn) 0); [right|left]; reflexivity.
  - unfold turnedRight. exact_literals.
    destruct (dle 360 (h + turn)); [right|left]; reflexivity.
Qed.

(** X7. The speed model does not overshoot.  With an inertia constant and an
    elapsed time that are not negative and not both 0, the new speed lies
    between the old speed and the target speed; it is the old speed when the
    elapsed time is 0 and the target speed when the inertia constant is 0. *)
Theorem updateVelocity_between E b s (odv : bool) (od : proteus_OceanData Q) :
  let tau := BoatWindResponse_getSpeedChangeResponse E (boatType b) in
  let windVec := wind (proteus_Weather_get E (pos b) true) in
  let target :=
    BoatWindResponse_getBoatSpeed E (mag windVec)
      (proteus_Compass_diff E (angle windVec) (angle (v b))) (boatType b)
    * oceanIceSpeedAdjustmentFactor odv od in
  0 <= tau -> 0 <= s -> 0 < tau + s ->
  let new := mag (v (updateVelocity E b s odv od)) in
  (mag (v b) <= target -> mag (v b) <= new <= target)
  /\ (target <= mag (v b) -> target <= new <= mag (v b))
  /\ (s == 0 -> new == mag (v b))
  /\ (tau == 0 -> new == target).
Proof.
  cbv zeta. intros Htau Hs Hpos.
  unfold updateVelocity. cbn [set_v_mag set_v v mag]. exact_literals.
  set (tau := BoatWindResponse_getSpeedChangeResponse E (boatType b)) in *.
  set (target := BoatWindResponse_getBoatSpeed E _ _ _ * _).
  set (old := mag (v b)).
  assert (Hne : ~ tau + s == 0) by lra.
  split; [|split; [|split]].
  - intros Hle. split.
    + apply Qle_shift_div_l; [exact Hpos|]. nra.
    + apply Qle_shift_div_r; [exact Hpos|]. nra.
  - intros Hle. split.
    + apply Qle_shift_div_l; [exact Hpos|]. nra.
    + apply Qle_shift_div_r; [exact Hpos|]. nra.
  - intros Hz. rewrite Hz. field. lra.
  - intros Hz. rewrite Hz. field. lra.
Qed.

(** X8. With the sails down the boat drifts at no more than a tenth of the
    wind speed.  On a sails-down tick that reaches the move, with a wind
    magnitude that is not negative and, when the ocean data is valid, an ice
    cover between 0 and 100, the speed after the tick lies between 0 and
    windMagnitude * 0.1; under full ice cover it is 0. *)
Theorem Boat_advance_sailsDown_drift E b s w :
  stop b = false -> inPolarMargin (lat (pos b)) = false -> sailsDown b = true ->
  (movingToSea b = true -> proteus_GeoInfo_isWater E (pos b) = true) ->
  0 <= mag (wind (proteus_Weather_get E (pos b) true)) ->
  (fst (proteus_Ocean_get E (pos b)) = true ->
   0 <= ice (snd (proteus_Ocean_get E (pos b))) <= 100) ->
  let b' := fst (Boat_advance E b s w) in
  0 <= mag (v b') <= mag (wind (proteus_Weather_get E (pos b) true)) * (1 # 10)
  /\ (fst (proteus_Ocean_get E (pos b)) = true ->
      ice (snd (proteus_Ocean_get E (pos b))) == 100 -> mag (v b') == 0).
Proof.
  intros Hs Hp Hd Hw Hwind Hice. cbv zeta.
  rewrite (Boat_advance_at_sea E b s w Hs Hp Hw).
  destruct (atSea_frame b) as (Fp & _ & _ & _ & _ & _ & Fsd).
  assert (Hd0 : sailsDown (atSea b) = true) by (rewrite Fsd; exact Hd).
  destruct (sail_fields E (atSea b) s w) as (_ & _ & Sm & _).
  rewrite Sm, (steer_sailsDown E (atSea b) s _ _ w Hd0), Fp.
  cbn [fst set_v v mag]. unfold oceanIceSpeedAdjustmentFactor. exact_literals.
  set (wm := mag (wind (proteus_Weather_get E (pos b) true))) in *.
  destruct (proteus_Ocean_get E (pos b)) as [valid od]. cbn [fst snd] in *.
  assert (Hf : 0 <= wm * (1 # 10) * (if valid then 1 - ice od / 100 else 1)
               <= wm * (1 # 10)
               /\ (valid = true -> ice od == 100 ->
                   wm * (1 # 10) * (if valid then 1 - ice od / 100 else 1) == 0)).
  { destruct valid.
    - specialize (Hice eq_refl).
      assert (Hq : ice od / 100 == ice od * (1 # 100)) by (field).
      rewrite Hq. split; [split; nra|]. intros _ H100. rewrite H100. field.
    - split; [lra|discriminate]. }
  destruct Hf as [Hb Hz].
  match goal with |- context [if proteus_GeoInfo_isWater E ?p then _ else _] =>
    destruct (proteus_GeoInfo_isWater E p) end.
  - split; [exact Hb|exact Hz].
  - split; [lra|]. intros _ _. reflexivity.
Qed.

(** X9. [distanceTravelled] never decreases, on any path of a tick and over
    any sequence of ticks, when the vector sum of every environment returns
    a magnitude that is not negative. *)
Theorem Boat_run_distanceTravelled_monotone (ticks : list (Env Q * Q)) b w :
  Forall (fun t => forall a c, 0 <= mag (proteus_GeoVec_add (fst t) a c)) ticks ->
  distanceTravelled b <= distanceTravelled (fst (Boat_run ticks (b, w))).
Proof.
  assert (Htick : forall E b s w,
            (forall a c, 0 <= mag (proteus_GeoVec_add E a c)) ->
            distanceTravelled b <= distanceTravelled (fst (Boat_advance E b s w))).
  { clear. intros E b s w Hadd.
    assert (Hsail : forall b0, distanceTravelled b0 = distanceTravelled b ->
              distanceTravelled b <= distanceTravelled (fst (sail E b0 s w))).
    { intros b0 Ed.
      destruct (sail_fields E b0 s w) as (_ & _ & _ & _ & Sd & _).
      rewrite Sd, Ed. exact_literals.
      destruct (fst (proteus_Ocean_get E (pos b0))).
      - match goal with |- context [mag (proteus_GeoVec_add E ?a ?c)] =>
          specialize (Hadd a c) end. lra.
      - match goal with |- context [Qabs ?x] => pose proof (Qabs_nonneg x) end. lra. }
    unfold Boat_advance.
    destruct (stop b); [apply Qle_refl|].
    destruct (_ || _)%bool; [apply Qle_refl|].
    destruct (movingToSea b); [|apply Hsail; reflexivity].
    destruct (proteus_GeoInfo_isWater E (pos b)).
    - apply Hsail. apply reachedWater_frame.
    - destruct (Boat_isHeadingTowardWater E b); apply Qle_refl. }
  revert b w. induction ticks as [|[E s] ticks IH]; intros b w Hall.
  - apply Qle_refl.
  - inversion Hall as [|t ts Ht Hts]; subst.
    unfold Boat_run in *. cbn [fold_left fst snd].
    destruct (Boat_advance E b s w) as [b1 w1] eqn:Hb.
    apply Qle_trans with (y := distanceTravelled b1).
    + pose proof (Htick E b s w Ht) as H1. rewrite Hb in H1. exact H1.
    + apply IH. exact Hts.
Qed.

End ExactMotion.

(** ** The further properties at concrete inputs *)

(** X3 off [leeShore]: the boat runs aground on its first tick and stays
    stopped on the second. *)
Lemma Boat_run_stopped_at_rest_witness :
  let b := toyBoat c_0 c_1 c_0 false false false : Boat float in
  let b' := fst (Boat_run [(leeShore, c_1); (calmSea, c_1)] (b, world0)) in
  (stop b = true -> mag (v b) = c_0) /\ stop b' = true /\ mag (v b') = c_0.
Proof.
  cbv zeta.
  assert (Hrest : stop (toyBoat c_0 c_1 c_0 false false false : Boat float) = true ->
                  mag (v (toyBoat c_0 c_1 c_0 false false false : Boat float)) = c_0)
    by (intros H; discriminate H).
  split; [exact Hrest|]. split; [reflexivity|].
  apply (@Boat_run_stopped_at_rest float Scalar_float
           [(leeShore, c_1); (calmSea, c_1)]
           (toyBoat c_0 c_1 c_0 false false false) world0 Hrest).
  reflexivity.
Defined.

(** X4 off [leeShore], with the sails down. *)
Lemma Boat_advance_grounding_witness :
  let b := toyBoat c_0 c_1 c_0 true false false : Boat float in
  let b' := fst (Boat_advance leeShore b c_1 world0) in
  stop b = false /\ inPolarMargin (lat (pos b)) = false /\ movingToSea b = false
  /\ stop b' = negb (proteus_GeoInfo_isWater leeShore (pos b')).
Proof.
  cbv zeta. repeat (split; [reflexivity|]).
  apply (@Boat_advance_grounding float Scalar_float leeShore
           (toyBoat c_0 c_1 c_0 true false false) c_1 world0);
    reflexivity.
Defined.

(** X6 in [calmSea]: heading 0, to steer 90, turning 3 per tick. *)
Lemma Boat_advance_turn_witness :
  let b := toyBoat c_0 c_1 c_90 false false false : Boat Q in
  let turn := (BoatWindResponse_getCourseChangeRate calmSea (boatType b) * c_1)%Q in
  stop b = false /\ inPolarMargin (lat (pos b)) = false /\ sailsDown b = false
  /\ movingToSea b = false
  /\ (0 <= angle (v (atSea b)) < 360)%Q
  /\ (0 <= turn
      < Qabs (proteus_Compass_diff calmSea (angle (v (atSea b))) (desiredCourse b)))%Q
  /\ angle (v (fst (Boat_advance calmSea b c_1 world0)))
     = turnedRight (angle (v (atSea b))) turn.
Proof.
  cbv zeta.
  assert (Hh : (0 <= angle (v (atSea (toyBoat c_0 c_1 c_90 false false false : Boat Q)))
                < 360)%Q) by (apply isCompassAngle_Q; reflexivity).
  assert (Ht : (0 <= BoatWindResponse_getCourseChangeRate calmSea
                       (boatType (toyBoat c_0 c_1 c_90 false false false : Boat Q)) * c_1
                < Qabs (proteus_Compass_diff calmSea
                          (angle (v (atSea (toyBoat c_0 c_1 c_90 false false false))))
                          (desiredCourse (toyBoat c_0 c_1 c_90 false false false))))%Q).
  { split; [apply dle_Q|apply dlt_Q]; reflexivity. }
  assert (Hp : inPolarMargin (lat (pos (toyBoat c_0 c_1 c_90 false false false : Boat Q)))
               = false) by reflexivity.
  assert (Hw : movingToSea (toyBoat c_0 c_1 c_90 false false false : Boat Q) = true ->
               proteus_GeoInfo_isWater calmSea
                 (pos (toyBoat c_0 c_1 c_90 false false false : Boat Q)) = true)
    by (intros _; reflexivity).
  repeat (split; [reflexivity|]). split; [exact Hh|]. split; [exact Ht|].
  apply (@Boat_advance_turn calmSea (toyBoat c_0 c_1 c_90 false false false) c_1 world0
           eq_refl Hp eq_refl Hw Hh Ht).
  split; [apply dlt_Q|apply dle_Q]; reflexivity.
Defined.

(** X7 in [icySea]: speed 1, target 4 * (1 - 50/100) = 2, inertia 1, dt 1. *)
Lemma updateVelocity_between_witness :
  let b := toyBoat c_0 c_1 c_90 false false false : Boat Q in
  let od := snd (proteus_Ocean_get icySea (pos b)) in
  (0 <= BoatWindResponse_getSpeedChangeResponse icySea (boatType b))%Q
  /\ (0 <= c_1)%Q
  /\ (0 < BoatWindResponse_getSpeedChangeResponse icySea (boatType b) + c_1)%Q
  /\ (mag (v b) <= mag (v (updateVelocity icySea b c_1 true od)))%Q.
Proof.
  cbv zeta.
  assert (H1 : (0 <= BoatWindResponse_getSpeedChangeResponse icySea
                       (boatType (toyBoat c_0 c_1 c_90 false false false : Boat Q)))%Q)
    by (apply dle_Q; reflexivity).
  assert (H2 : (0 <= c_1)%Q) by (apply dle_Q; reflexivity).
  assert (H3 : (0 < BoatWindResponse_getSpeedChangeResponse icySea
                      (boatType (toyBoat c_0 c_1 c_90 false false false : Boat Q)) + c_1)%Q)
    by (apply dlt_Q; reflexivity).
  repeat (split; [assumption|]).
  destruct (@updateVelocity_between icySea (toyBoat c_0 c_1 c_90 false false false) c_1
              true
              (snd (proteus_Ocean_get icySea
                      (pos (toyBoat c_0 c_1 c_90 false false false : Boat Q))))
              H1 H2 H3) as (Hup & _).
  apply Hup. apply dle_Q. reflexivity.
Defined.

(** X8 in [icySea]: wind 20, half ice cover. *)
Lemma Boat_advance_sailsDown_drift_witness :
  let b := toyBoat c_0 c_1 c_90 true false false : Boat Q in
  stop b = false /\ inPolarMargin (lat (pos b)) = false /\ sailsDown b = true
  /\ movingToSea b = false
  /\ (0 <= mag (wind (proteus_Weather_get icySea (pos b) true)))%Q
  /\ (0 <= ice (snd (proteus_Ocean_get icySea (pos b))) <= 100)%Q
  /\ (0 <= mag (v (fst (Boat_advance icySea b c_1 world0)))
      <= mag (wind (proteus_Weather_get icySea (pos b) true)) * (1 # 10))%Q.
Proof.
  cbv zeta.
  assert (Hw : (0 <= mag (wind (proteus_Weather_get icySea
                   (pos (toyBoat c_0 c_1 c_90 true false false : Boat Q)) true)))%Q)
    by (apply dle_Q; reflexivity).
  assert (Hi : (0 <= ice (snd (proteus_Ocean_get icySea
                   (pos (toyBoat c_0 c_1 c_90 true false false : Boat Q)))) <= 100)%Q)
    by (split; apply dle_Q; reflexivity).
  assert (Hp : inPolarMargin (lat (pos (toyBoat c_0 c_1 c_90 true false false : Boat Q)))
               = false) by reflexivity.
  assert (Hs : movingToSea (toyBoat c_0 c_1 c_90 true false false : Boat Q) = true ->
               proteus_GeoInfo_isWater icySea
                 (pos (toyBoat c_0 c_1 c_90 true false false : Boat Q)) = true)
    by (intros _; reflexivity).
  repeat (split; [reflexivity|]). split; [exact Hw|]. split; [exact Hi|].
  apply (@Boat_advance_sailsDown_drift icySea
           (toyBoat c_0 c_1 c_90 true false false) c_1 world0
           eq_refl Hp eq_refl Hs Hw (fun _ => Hi)).
Defined.

(** X9 over a tick in [icySea] and a tick in [calmSea]. *)
Lemma Boat_run_distanceTravelled_monotone_witness :
  let b := toyBoat c_0 c_1 c_90 false false false : Boat Q in
  let ticks := [(icySea, c_1); (calmSea, dconst 5 1)] in
  Forall (fun t => forall a c, 0 <= mag (proteus_GeoVec_add (fst t) a c))%Q ticks
  /\ (distanceTravelled b <= distanceTravelled (fst (Boat_run ticks (b, world0))))%Q.
Proof.
  cbv zeta.
  assert (Hall : Forall (fun t : Env Q * Q =>
                           forall a c, 0 <= mag (proteus_GeoVec_add (fst t) a c))%Q
                   [(icySea, c_1); (calmSea, dconst 5 1)]).
  { repeat constructor; intros a c; apply Qabs_nonneg. }
  split; [exact Hall|].
  apply (@Boat_run_distanceTravelled_monotone
           [(icySea, c_1); (calmSea, dconst 5 1)]
           (toyBoat c_0 c_1 c_90 false false false) world0 Hall).
Defined.
